(** * Gpt-4o-Realtime-API: transcript assembly, receive loop and playback

    A shallow embedding of the chat page of the frontend
    (src/frontend/components/action-buttons.tsx, second file of the
    bundle: [handleWSMessage], [setMessages], [receiveLoop]) and of the
    console [SpeakerOutput] class shown in
    src/middle-tier/aspnet-realtime-middleware-explanation.md.

    JavaScript objects are mutable and shared: the [Message] held in
    [currentUserMessage.current] is the very object stored in
    [messageMap].  The model therefore keeps an object store ([heap], a
    list indexed by address) and lets the map and the ref hold addresses. *)

From Stdlib.Strings Require Import Ascii Byte.
From stdpp Require Import base decidable option list strings pretty gmap.

(** ** JavaScript values used by the page *)

(** Truthiness of an optional string property: [undefined] and [''] are
    falsy, every other string is truthy. *)
Definition truthy (v : option string) : bool :=
  match v with
  | Some s => negb (String.eqb s "")
  | None => false
  end.

(** [v || ''] on an optional string property. *)
Definition or_empty (v : option string) : string := default "" v.

(** [v === 'lit'] for an optional string property and a string literal. *)
Definition strict_eq (v : option string) (lit : string) : bool :=
  bool_decide (v = Some lit).

(** [hay.includes(needle)]: [needle] occurs in [hay] at some offset. *)
Fixpoint includes (hay needle : string) : bool :=
  String.prefix needle hay ||
  match hay with
  | EmptyString => false
  | String _ hay' => includes hay' needle
  end.

(** ** types/chat.ts *)

Module Message.
(** [interface Message { id; content; role }].  The declared type of
    [role] is the union 'user' | 'assistant' | 'status'; at run time it is
    a property that [setMessages] does not trust, so it is kept as an
    optional string here. *)
Record t : Type := mk {
  id : string;
  role : option string;
  content : string
}.
End Message.

(** ** The built-in [Map]: keys iterate in insertion order *)

Module JSMap.

Definition t (V : Type) : Type := list (string * V).

Definition empty {V} : t V := [].

Fixpoint get {V} (k : string) (m : t V) : option V :=
  match m with
  | [] => None
  | (k', v) :: m' => if decide (k' = k) then Some v else get k m'
  end.

(** [set] keeps the position of a key that is already present and puts a
    new key last. *)
Fixpoint set {V} (k : string) (v : V) (m : t V) : t V :=
  match m with
  | [] => [(k, v)]
  | (k', v') :: m' =>
      if decide (k' = k) then (k, v) :: m' else (k', v') :: set k v m'
  end.

Fixpoint delete {V} (k : string) (m : t V) : t V :=
  match m with
  | [] => []
  | (k', v') :: m' =>
      if decide (k' = k) then m' else (k', v') :: delete k m'
  end.

Definition keys {V} (m : t V) : list string := m.*1.

Definition values {V} (m : t V) : list V := m.*2.

End JSMap.

(** ** lib/audio *)

Module Player.
(** Modelled from the spec: the [Player] class of lib/audio is not part of
    the sources.  Following 4.3 of the specification, [play] appends a
    chunk of samples to the tail of the playback buffer and [clear]
    discards everything that is buffered. *)
Record t : Type := mk { buffered : list (list Z) }.

Definition new : t := mk [].

Definition play (samples : list Z) (p : t) : t := mk (buffered p ++ [samples]).

Definition clear (p : t) : t := mk [].
End Player.

(** ** The WebSocket message of the page *)

Module WSMessage.
(** [interface WSMessage].  [type] and [action] are string unions in the
    declaration; they come out of [JSON.parse] and are compared with
    literals only, so they are optional strings here. *)
Record t : Type := mk {
  id : option string;
  type : option string;
  delta : option string;
  text : option string;
  action : option string;
  greeting : option string
}.
End WSMessage.

(** What a handler reads from the environment: [Date.now()] and the text
    of [Math.random()] as string concatenation renders it. *)
Record Env : Type := mkEnv {
  Date_now : N;
  Math_random : string
}.

(** ** State of [ChatInterface] that the handlers touch *)

(** [heap] is the object store; [messageMap] and [currentUserMessage]
    hold addresses into it.  [chatState] is the array handed to
    [setChatState]: it is kept by value, since every assignment to an
    object is followed by [setMessages] before the handler returns. *)
Record State : Type := mkState {
  heap : list Message.t;
  messageMap : JSMap.t nat;
  currentUserMessage : option nat;
  audioPlayerRef : option Player.t;
  chatState : list Message.t
}.

Definition initial : State := mkState [] JSMap.empty None None [].

Definition with_heap (h : list Message.t) (st : State) : State :=
  mkState h (messageMap st) (currentUserMessage st) (audioPlayerRef st)
    (chatState st).

Definition with_messageMap (m : JSMap.t nat) (st : State) : State :=
  mkState (heap st) m (currentUserMessage st) (audioPlayerRef st)
    (chatState st).

Definition with_currentUserMessage (c : option nat) (st : State) : State :=
  mkState (heap st) (messageMap st) c (audioPlayerRef st) (chatState st).

Definition with_audioPlayerRef (p : option Player.t) (st : State) : State :=
  mkState (heap st) (messageMap st) (currentUserMessage st) p (chatState st).

Definition with_chatState (ms : list Message.t) (st : State) : State :=
  mkState (heap st) (messageMap st) (currentUserMessage st)
    (audioPlayerRef st) ms.

(** Object literal: a new object at the next free address. *)
Definition alloc (m : Message.t) (st : State) : nat * State :=
  (length (heap st), with_heap (heap st ++ [m]) st).

(** [obj.content = s]. *)
Definition assign_content (a : nat) (s : string) (st : State) : State :=
  with_heap
    (alter (fun m => Message.mk (Message.id m) (Message.role m) s) a (heap st))
    st.

(** [obj.content += s]. *)
Definition append_content (a : nat) (s : string) (st : State) : State :=
  with_heap
    (alter (fun m => Message.mk (Message.id m) (Message.role m)
                       (Message.content m +:+ s)) a (heap st))
    st.

(** ** setMessages *)

(** The callback of [.map]: a message whose role is neither 'user' nor
    'status' is copied with role 'assistant', any other is returned as
    it is. *)
Definition normalize (m : Message.t) : Message.t :=
  if negb (strict_eq (Message.role m) "user") &&
     negb (strict_eq (Message.role m) "status")
  then Message.mk (Message.id m) (Some "assistant") (Message.content m)
  else m.

(** [Array.from(messageMap.current.values()).map(...)]: the objects of the
    map in iteration order, read from the store. *)
Definition Snapshot (st : State) : list Message.t :=
  normalize <$> omap (fun a => heap st !! a) (JSMap.values (messageMap st)).

Definition setMessages (st : State) : State :=
  with_chatState (Snapshot st) st.

(** ** handleWSMessage *)

Definition statusMessageId (env : Env) : string :=
  "status-" +:+ pretty (Date_now env).

Definition contrivedId (env : Env) : string :=
  "userMessage" +:+ Math_random env.

Definition greetingText : string :=
  "You are now connected to the real-time processing server".

(** The callback of the first [forEach] of the connected case. *)
Definition isConnecting (st : State) (kv : string * nat) : bool :=
  match heap st !! kv.2 with
  | Some msg =>
      strict_eq (Message.role msg) "status" &&
      includes (Message.content msg) "Connecting"
  | None => false
  end.

Definition messagesToRemove (st : State) : list string :=
  (List.filter (isConnecting st) (messageMap st)).*1.

Definition case_transcription (message : WSMessage.t) (st : State) : State :=
  if truthy (WSMessage.id message) then
    match currentUserMessage st with
    | Some a =>
        setMessages (assign_content a (or_empty (WSMessage.text message)) st)
    | None => st
    end
  else st.

Definition case_text_delta (message : WSMessage.t) (st : State) : State :=
  match WSMessage.id message with
  | Some i =>
      if truthy (Some i) then
        match JSMap.get i (messageMap st) with
        | Some existingMessage =>
            setMessages
              (append_content existingMessage
                 (or_empty (WSMessage.delta message)) st)
        | None =>
            let '(newMessage, st1) :=
              alloc (Message.mk i (Some "assistant")
                       (or_empty (WSMessage.delta message))) st in
            setMessages
              (with_messageMap (JSMap.set i newMessage (messageMap st1)) st1)
        end
      else st
  | None => st
  end.

Definition case_control (env : Env) (message : WSMessage.t) (st : State)
  : State :=
  if strict_eq (WSMessage.action message) "connected" &&
     truthy (WSMessage.greeting message)
  then
    let '(statusMessage, st1) :=
      alloc (Message.mk (statusMessageId env) (Some "assistant") greetingText)
        st in
    let st2 :=
      with_messageMap
        (JSMap.set (statusMessageId env) statusMessage (messageMap st1)) st1 in
    let st3 :=
      with_messageMap
        (foldl (fun m key => JSMap.delete key m) (messageMap st2)
           (messagesToRemove st2)) st2 in
    setMessages st3
  else if strict_eq (WSMessage.action message) "speech_started" then
    let st1 := with_audioPlayerRef (Player.clear <$> audioPlayerRef st) st in
    let '(userMessage, st2) :=
      alloc (Message.mk (contrivedId env) (Some "user") "...") st1 in
    let st3 := with_currentUserMessage (Some userMessage) st2 in
    setMessages
      (with_messageMap (JSMap.set (contrivedId env) userMessage (messageMap st3))
         st3)
  else st.

Definition handleWSMessage (env : Env) (message : WSMessage.t) (st : State)
  : State :=
  if strict_eq (WSMessage.type message) "transcription"
  then case_transcription message st
  else if strict_eq (WSMessage.type message) "text_delta"
  then case_text_delta message st
  else if strict_eq (WSMessage.type message) "control"
  then case_control env message st
  else st.

(** A stream of server messages handled one after the other, each with
    the environment read while it is handled. *)
Definition handleAll (evs : list (Env * WSMessage.t)) (st : State) : State :=
  foldl (fun s ev => handleWSMessage ev.1 ev.2 s) st evs.

(** ** handleConnect *)

(** The statements of the [try] block of [handleConnect] that act on the
    message map, for a page that is not connected: the map is cleared, a
    status message "Connecting..." is filed under status-<time> and the
    snapshot is published.  (The objects of the old map stay in the store,
    out of reach of the map.) *)
Definition handleConnect_try (env : Env) (st : State) : State :=
  let st0 := with_messageMap JSMap.empty st in
  let '(statusMessage, st1) :=
    alloc (Message.mk (statusMessageId env) (Some "status") "Connecting...")
      st0 in
  setMessages
    (with_messageMap
       (JSMap.set (statusMessageId env) statusMessage (messageMap st1)) st1).

(** ** receiveLoop *)

(** A message yielded by the [WebSocketClient] iterator (lib/client, not
    part of the sources): [{type: "text", data}] or
    [{type: "binary", data}]. *)
Inductive Frame : Type :=
  | text (data : string)
  | binary (data : list byte).

Inductive JSError : Type := SyntaxError | TypeError | RangeError.

(** [JSON.parse(message.data) as WSMessage]: the text is not JSON
    ([JSON.parse] throws), it is the JSON text [null] (reading [.type]
    throws in [handleWSMessage]), or its properties are read as a
    [WSMessage].  The cast is trusted as to the property types. *)
Inductive Parsed : Type :=
  | Invalid
  | Null
  | Value (data : WSMessage.t).

Inductive ConsoleEntry : Type :=
  | console_log (data : option WSMessage.t)
  | console_error (error : JSError).

(** [new Int16Array(message.data)] over an [ArrayBuffer]: little-endian
    pairs of bytes read as signed 16-bit integers; a buffer of odd length
    makes the constructor throw a [RangeError]. *)
Definition int16 (lo hi : byte) : Z :=
  let u := (Z.of_N (Byte.to_N lo) + 256 * Z.of_N (Byte.to_N hi))%Z in
  if (u <? 32768)%Z then u else (u - 65536)%Z.

Fixpoint Int16Array (data : list byte) : option (list Z) :=
  match data with
  | [] => Some []
  | [_] => None
  | lo :: hi :: rest => cons (int16 lo hi) <$> Int16Array rest
  end.

Module Loop.
Record t : Type := mk {
  page : State;
  console : list ConsoleEntry
}.
End Loop.

Definition initAudioPlayer (st : State) : State :=
  match audioPlayerRef st with
  | None => with_audioPlayerRef (Some Player.new) st
  | Some _ => st
  end.

Section ReceiveLoop.

Variable JSON_parse : string -> Parsed.

(** The body of the [for await] loop: [inl] when the iteration completes,
    [inr] when it throws out of the loop. *)
Definition receive (env : Env) (message : Frame) (ls : Loop.t)
  : Loop.t + JSError :=
  match message with
  | text data =>
      match JSON_parse data with
      | Invalid =>
          inl (Loop.mk (Loop.page ls)
                 (Loop.console ls ++ [console_error SyntaxError]))
      | Null =>
          inl (Loop.mk (Loop.page ls)
                 (Loop.console ls ++
                    [console_log None; console_error TypeError]))
      | Value data =>
          inl (Loop.mk (handleWSMessage env data (Loop.page ls))
                 (Loop.console ls ++ [console_log (Some data)]))
      end
  | binary data =>
      match audioPlayerRef (Loop.page ls) with
      | Some player =>
          match Int16Array data with
          | Some samples =>
              inl (Loop.mk
                     (with_audioPlayerRef (Some (Player.play samples player))
                        (Loop.page ls))
                     (Loop.console ls))
          | None => inr RangeError
          end
      | None => inl ls
      end
  end.

(** [for await (const message of webSocketClient.current)]: the frames
    are taken in order until the stream ends ([None]: the loop returns) or
    an iteration throws. *)
Fixpoint for_await (frames : list (Env * Frame)) (ls : Loop.t)
  : Loop.t * option JSError :=
  match frames with
  | [] => (ls, None)
  | (env, message) :: frames' =>
      match receive env message ls with
      | inl ls' => for_await frames' ls'
      | inr e => (ls, Some e)
      end
  end.

(** [webSocketClient] is [None] for a null ref, else the frames the
    socket delivers until it closes. *)
Definition receiveLoop (webSocketClient : option (list (Env * Frame)))
  (ls : Loop.t) : Loop.t * option JSError :=
  let ls1 := Loop.mk (initAudioPlayer (Loop.page ls)) (Loop.console ls) in
  match webSocketClient with
  | None => (ls1, None)
  | Some frames => for_await frames ls1
  end.

End ReceiveLoop.

(** ** SpeakerOutput (console client) *)

Module SpeakerOutput.

(** [_audioQueue] is the [ConcurrentQueue<byte[]>]; [_waveProvider] is
    the content of NAudio's [BufferedWaveProvider], taken as a FIFO of
    bytes ([AddSamples] appends, [ClearBuffer] empties, the output device
    reads from the front); [device] collects the bytes the
    [WaveOutEvent] has pulled for output; [_cts] is the cancellation
    flag. *)
Record t : Type := mk {
  _audioQueue : list (list byte);
  _waveProvider : list byte;
  device : list byte;
  _cts : bool
}.

Definition new : t := mk [] [] [] false.

Definition EnqueueForPlayback (audioData : list byte) (s : t) : t :=
  mk (_audioQueue s ++ [audioData]) (_waveProvider s) (device s) (_cts s).

(** One iteration of the [while] loop of [ProcessAudioQueue]. *)
Definition ProcessAudioQueue (s : t) : t :=
  if _cts s then s
  else
    match _audioQueue s with
    | buffer :: rest => mk rest (_waveProvider s ++ buffer) (device s) (_cts s)
    | [] => s
    end.

Definition ClearPlayback (s : t) : t :=
  mk (_audioQueue s) [] (device s) (_cts s).

(** The playing [WaveOutEvent] pulls up to [n] bytes from the provider. *)
Definition Read (n : nat) (s : t) : t :=
  mk (_audioQueue s) (drop n (_waveProvider s))
    (device s ++ take n (_waveProvider s)) (_cts s).

Definition Dispose (s : t) : t :=
  mk (_audioQueue s) (_waveProvider s) (device s) true.

(** The caller, the background task and the device run concurrently; a
    schedule lists their atomic steps in the order they take effect. *)
Inductive Step : Type :=
  | enqueue (audioData : list byte)
  | process
  | clear
  | read (n : nat)
  | dispose.

Definition step (e : Step) (s : t) : t :=
  match e with
  | enqueue audioData => EnqueueForPlayback audioData s
  | process => ProcessAudioQueue s
  | clear => ClearPlayback s
  | read n => Read n s
  | dispose => Dispose s
  end.

Definition run (sched : list Step) (s : t) : t :=
  foldl (fun s e => step e s) s sched.

End SpeakerOutput.

(** ** A decoder for the wire vocabulary

    [JSON.parse] is a parameter of [receiveLoop] above.  To run the loop on
    concrete frames, [parse_frame] reads the frames of the protocol: the
    text [null], or one object whose properties are all strings (the escapes
    quote, backslash, slash, b, f, n, r and t are read; any other text is
    rejected).  It is narrower than [JSON.parse], which also accepts
    u-escapes, properties that are not strings and values that are not
    objects; the general statements take [JSON.parse] as a parameter, and
    [parse_frame] is run only on frames that both read alike. *)

Definition quote : ascii := "034"%char.
Definition backslash : ascii := "092"%char.

Definition is_space (c : ascii) : bool :=
  bool_decide (c ∈ [" "%char; "009"%char; "010"%char; "013"%char]).

Fixpoint skip_ws (s : string) : string :=
  match s with
  | String c s' => if is_space c then skip_ws s' else s
  | EmptyString => s
  end.

Definition unescape (c : ascii) : option ascii :=
  if bool_decide (c ∈ [quote; backslash; "/"%char]) then Some c
  else if Ascii.eqb c "b" then Some "008"%char
  else if Ascii.eqb c "f" then Some "012"%char
  else if Ascii.eqb c "n" then Some "010"%char
  else if Ascii.eqb c "r" then Some "013"%char
  else if Ascii.eqb c "t" then Some "009"%char
  else None.

(** The characters up to the closing quote, and what follows it. *)
Fixpoint read_string (s : string) : option (string * string) :=
  match s with
  | EmptyString => None
  | String c s' =>
      if Ascii.eqb c quote then Some (EmptyString, s')
      else if Ascii.eqb c backslash then
        match s' with
        | String e s'' =>
            match unescape e, read_string s'' with
            | Some c', Some (str, rest) => Some (String c' str, rest)
            | _, _ => None
            end
        | EmptyString => None
        end
      else if (Ascii.N_of_ascii c <? 32)%N then None
      else
        match read_string s' with
        | Some (str, rest) => Some (String c str, rest)
        | None => None
        end
  end.

(** One ["key" : "value"] member at the head of [s]. *)
Definition read_member (s : string) : option ((string * string) * string) :=
  match skip_ws s with
  | String c s1 =>
      if Ascii.eqb c quote then
        match read_string s1 with
        | Some (key, s2) =>
            match skip_ws s2 with
            | String ":" s3 =>
                match skip_ws s3 with
                | String c' s4 =>
                    if Ascii.eqb c' quote then
                      match read_string s4 with
                      | Some (value, s5) => Some ((key, value), skip_ws s5)
                      | None => None
                      end
                    else None
                | EmptyString => None
                end
            | _ => None
            end
        | None => None
        end
      else None
  | EmptyString => None
  end.

(** The members after the first, up to the closing brace. *)
Fixpoint read_members (fuel : nat) (s : string)
  : option (list (string * string) * string) :=
  match fuel with
  | O => None
  | S fuel' =>
      match s with
      | String "}" rest => Some ([], rest)
      | String "," s1 =>
          match read_member s1 with
          | Some (kv, s2) =>
              match read_members fuel' s2 with
              | Some (kvs, rest) => Some (kv :: kvs, rest)
              | None => None
              end
          | None => None
          end
      | _ => None
      end
  end.

Definition read_object (s : string) : option (list (string * string)) :=
  match skip_ws s with
  | String "{" s1 =>
      let members :=
        match skip_ws s1 with
        | String "}" rest => Some ([], rest)
        | _ =>
            match read_member s1 with
            | Some (kv, s2) =>
                match read_members (String.length s2) s2 with
                | Some (kvs, rest) => Some (kv :: kvs, rest)
                | None => None
                end
            | None => None
            end
        end in
      match members with
      | Some (kvs, rest) =>
          match skip_ws rest with
          | EmptyString => Some kvs
          | _ => None
          end
      | None => None
      end
  | _ => None
  end.

(** Property read: of two members with one key the later one counts. *)
Definition property (key : string) (kvs : list (string * string))
  : option string :=
  JSMap.get key (reverse kvs).

Definition parse_frame (s : string) : Parsed :=
  match read_object s with
  | Some kvs =>
      Value (WSMessage.mk (property "id" kvs) (property "type" kvs)
               (property "delta" kvs) (property "text" kvs)
               (property "action" kvs) (property "greeting" kvs))
  | None =>
      match skip_ws s with
      | String "n" (String "u" (String "l" (String "l" rest))) =>
          match skip_ws rest with
          | EmptyString => Null
          | _ => Invalid
          end
      | _ => Invalid
      end
  end.

(** ** Notions used by the statements *)

(** The object stored under key [i]. *)
Definition message_at (i : string) (st : State) : option Message.t :=
  JSMap.get i (messageMap st) ≫= fun a => heap st !! a.

(** The first message of a list that carries the id [i]. *)
Definition find_id (i : string) (ms : list Message.t) : option Message.t :=
  List.find (fun m => String.eqb (Message.id m) i) ms.

(** A store as the handlers build it: no key and no object occurs twice
    in the map, every key leads to an object that carries the key as its
    id, and [currentUserMessage.current] refers to an object. *)
Record wf (st : State) : Prop := mk_wf {
  wf_keys : NoDup (JSMap.keys (messageMap st));
  wf_refs : NoDup (JSMap.values (messageMap st));
  wf_ids : ∀ k a, (k, a) ∈ messageMap st →
             ∃ m, heap st !! a = Some m ∧ Message.id m = k;
  wf_current : ∀ a, currentUserMessage st = Some a → a < length (heap st)
}.

(** No message of the map is tagged 'status'. *)
Definition no_status (st : State) : Prop :=
  ∀ k a m, (k, a) ∈ messageMap st → heap st !! a = Some m →
           Message.role m ≠ Some "status".

(** Concatenation of fragments, first fragment first. *)
Definition concat_fragments (frags : list string) : string :=
  foldr String.append EmptyString frags.

(** The fragment a text_delta message contributes. *)
Definition fragment (ev : Env * WSMessage.t) : string :=
  or_empty (WSMessage.delta ev.2).

(** A text_delta message for the id [i]. *)
Definition delta_for (i : string) (ev : Env * WSMessage.t) : Prop :=
  WSMessage.type ev.2 = Some "text_delta" ∧ WSMessage.id ev.2 = Some i.


(** A message the connected case removes. *)
Definition connecting (m : Message.t) : bool :=
  strict_eq (Message.role m) "status" &&
  includes (Message.content m) "Connecting".


(** The state in which a new object [x] has been filed under its id. *)
Definition filed (x : Message.t) (c : option nat) (st : State) : State :=
  mkState (heap st ++ [x])
    (JSMap.set (Message.id x) (length (heap st)) (messageMap st))
    c (audioPlayerRef st) (chatState st).

(** The object literals of the control case. *)
Definition statusMessage (env : Env) : Message.t :=
  Message.mk (statusMessageId env) (Some "assistant") greetingText.

Definition placeholder (env : Env) : Message.t :=
  Message.mk (contrivedId env) (Some "user") "...".

(** The object literal of the text_delta case. *)
Definition newMessage (i : string) (message : WSMessage.t) : Message.t :=
  Message.mk i (Some "assistant") (or_empty (WSMessage.delta message)).

(** The message id a server message is filed under, if it files one. *)
Definition observed (ev : Env * WSMessage.t) : option string :=
  let '(env, message) := ev in
  if strict_eq (WSMessage.type message) "text_delta" then
    if truthy (WSMessage.id message) then WSMessage.id message else None
  else if strict_eq (WSMessage.type message) "control" then
    if strict_eq (WSMessage.action message) "connected" &&
       truthy (WSMessage.greeting message)
    then Some (statusMessageId env)
    else if strict_eq (WSMessage.action message) "speech_started"
    then Some (contrivedId env)
    else None
  else None.

(** What a handled message can have done to the state: nothing, or the
    body of one of the five guarded blocks of the switch. *)
Inductive effect (env : Env) (message : WSMessage.t) (st : State)
  : State → Prop :=
  | effect_none :
      observed (env, message) = None → effect env message st st
  | effect_assign a :
      WSMessage.type message = Some "transcription" →
      truthy (WSMessage.id message) = true →
      currentUserMessage st = Some a →
      effect env message st
        (setMessages (assign_content a (or_empty (WSMessage.text message)) st))
  | effect_append i a :
      WSMessage.type message = Some "text_delta" →
      WSMessage.id message = Some i → i ≠ EmptyString →
      JSMap.get i (messageMap st) = Some a →
      effect env message st
        (setMessages
           (append_content a (or_empty (WSMessage.delta message)) st))
  | effect_create i :
      WSMessage.type message = Some "text_delta" →
      WSMessage.id message = Some i → i ≠ EmptyString →
      JSMap.get i (messageMap st) = None →
      effect env message st
        (setMessages (filed (newMessage i message) (currentUserMessage st) st))
  | effect_connected :
      WSMessage.type message = Some "control" →
      WSMessage.action message = Some "connected" →
      truthy (WSMessage.greeting message) = true →
      effect env message st
        (let st2 := filed (statusMessage env) (currentUserMessage st) st in
         setMessages
           (with_messageMap
              (foldl (fun m key => JSMap.delete key m) (messageMap st2)
                 (messagesToRemove st2)) st2))
  | effect_speech_started :
      WSMessage.type message = Some "control" →
      WSMessage.action message = Some "speech_started" →
      effect env message st
        (setMessages
           (filed (placeholder env) (Some (length (heap st)))
              (with_audioPlayerRef (Player.clear <$> audioPlayerRef st) st))).

(** ** Sample messages and states *)

Definition text_delta_message (i : string) (delta : option string)
  : WSMessage.t :=
  WSMessage.mk (Some i) (Some "text_delta") delta None None None.

Definition transcription_message (i text : string) : WSMessage.t :=
  WSMessage.mk (Some i) (Some "transcription") None (Some text) None None.

Definition control_message (action : string) (greeting : option string)
  : WSMessage.t :=
  WSMessage.mk None (Some "control") None None (Some action) greeting.

(** Three deltas of one reply; the second has no [delta] property. *)
Definition sample_reply : list (Env * WSMessage.t) :=
  [(mkEnv 0 "0.5", text_delta_message "resp_1" (Some "Hel"));
   (mkEnv 1 "0.5", text_delta_message "resp_1" None);
   (mkEnv 2 "0.5", text_delta_message "resp_1" (Some "lo"))].

(** The store after speech_started with [Math.random()] printing 0.5. *)
Definition listening : State :=
  mkState [Message.mk "userMessage0.5" (Some "user") "..."]
    [("userMessage0.5", 0)] (Some 0) (Some Player.new)
    [Message.mk "userMessage0.5" (Some "user") "..."].

(** The store [handleConnect] leaves at time 1, followed by one reply. *)
Definition connecting_state : State :=
  mkState
    [Message.mk "status-1" (Some "status") "Connecting...";
     Message.mk "resp_1" (Some "assistant") "Hello"]
    [("status-1", 0); ("resp_1", 1)] None (Some Player.new)
    [Message.mk "status-1" (Some "status") "Connecting...";
     Message.mk "resp_1" (Some "assistant") "Hello"].

(** A store with a message tagged 'system', one without a role and one
    tagged 'status'. *)
Definition mistagged : State :=
  mkState
    [Message.mk "m1" (Some "system") "be brief";
     Message.mk "m2" None "hello";
     Message.mk "m3" (Some "status") "Connecting..."]
    [("m1", 0); ("m2", 1); ("m3", 2)] None None [].

(** [JSON.stringify] of an object of string properties whose keys and
    values need no escape, as the server writes its frames. *)
Definition quoted (s : string) : string :=
  String quote s +:+ String quote EmptyString.

Fixpoint stringify_members (kvs : list (string * string)) : string :=
  match kvs with
  | [] => EmptyString
  | [(k, v)] => quoted k +:+ ":" +:+ quoted v
  | (k, v) :: kvs' =>
      quoted k +:+ ":" +:+ quoted v +:+ "," +:+ stringify_members kvs'
  end.

Definition stringify (kvs : list (string * string)) : string :=
  "{" +:+ stringify_members kvs +:+ "}".

(** Two frames of a reply with a frame that is not JSON in between. *)
Definition sample_frame_1 : Env * Frame :=
  (mkEnv 0 "0.5",
   text (stringify [("type", "text_delta"); ("id", "resp_1"); ("delta", "Hel")])).

Definition sample_frame_2 : Env * Frame :=
  (mkEnv 1 "0.5",
   text (stringify [("type", "text_delta"); ("id", "resp_1"); ("delta", "lo")])).

Definition malformed_frame : Env * Frame :=
  (mkEnv 1 "0.5", text "{not json").

Definition unknown_frame : Env * Frame :=
  (mkEnv 1 "0.5", text (stringify [("type", "ping"); ("id", "resp_1")])).


(** * The rest of the page *)

(** ** Built-ins the page calls *)

(** [String.prototype.trim] on code units below 256: tab, line feed,
    vertical tab, form feed, carriage return, space and no-break space
    are stripped from both ends. *)
Definition is_js_space (c : ascii) : bool :=
  bool_decide
    (c ∈ ["009"%char; "010"%char; "011"%char; "012"%char; "013"%char;
          " "%char; "160"%char]).

Fixpoint trimStart (s : string) : string :=
  match s with
  | String c s' => if is_js_space c then trimStart s' else s
  | EmptyString => EmptyString
  end.

Definition trimEnd (s : string) : string :=
  String.rev (trimStart (String.rev s)).

Definition trim (s : string) : string := trimEnd (trimStart s).

(** [JSON.stringify] of a string (QuoteJSONString, code units below
    256): the two-character escapes, a u-escape for the other control
    characters, every other character as it is. *)
Definition escaped (c : ascii) : string :=
  String backslash (String c EmptyString).

Definition hex_digit (n : N) : ascii :=
  default "0"%char
    (String.get (N.to_nat n) "0123456789abcdef").

Definition JSON_quote_char (c : ascii) : string :=
  if Ascii.eqb c "008" then escaped "b"
  else if Ascii.eqb c "009" then escaped "t"
  else if Ascii.eqb c "010" then escaped "n"
  else if Ascii.eqb c "012" then escaped "f"
  else if Ascii.eqb c "013" then escaped "r"
  else if Ascii.eqb c quote then escaped quote
  else if Ascii.eqb c backslash then escaped backslash
  else if (Ascii.N_of_ascii c <? 32)%N then
    String backslash
      ("u00" +:+
       String (hex_digit (Ascii.N_of_ascii c / 16))
         (String (hex_digit (Ascii.N_of_ascii c mod 16)) EmptyString))
  else String c EmptyString.

Fixpoint JSON_quote_body (s : string) : string :=
  match s with
  | EmptyString => String quote EmptyString
  | String c s' => JSON_quote_char c +:+ JSON_quote_body s'
  end.

Definition JSON_quote (s : string) : string :=
  String quote (JSON_quote_body s).

(** [JSON.stringify({type: "user_message", text: input})]. *)
Definition JSON_stringify_user_message (input : string) : string :=
  "{" +:+ JSON_quote "type" +:+ ":" +:+ JSON_quote "user_message" +:+ "," +:+
  JSON_quote "text" +:+ ":" +:+ JSON_quote input +:+ "}".

(** ** lib/client and the recorder of lib/audio *)

Module WebSocketClient.
(** Modelled from the spec: the [WebSocketClient] class of lib/client is
    not part of the sources.  Of the socket the model keeps the frames
    handed to [send], in order; [close] is the end of the object. *)
Record t : Type := mk { sent : list Frame }.

Definition new : t := mk [].

Definition send (message : Frame) (c : t) : t := mk (sent c ++ [message]).
End WebSocketClient.

Module Recorder.
(** Modelled from the spec: the [Recorder] class of lib/audio is not part
    of the sources.  docs/real-time-notes.md shows that [start] catches
    its own errors and stops; the model keeps whether the recorder is
    capturing. *)
Record t : Type := mk { capturing : bool }.

Definition new : t := mk false.

(** [worklet]: whether the audio context and its worklet came up. *)
Definition start (worklet : bool) (r : t) : t := mk worklet.

Definition stop (r : t) : t := mk false.
End Recorder.

(** What [handleToggleMicrophone] meets when it asks for the microphone:
    whether [getUserMedia] resolves, and whether the recorder comes up. *)
Record Devices : Type := mkDevices {
  getUserMedia : bool;
  worklet : bool
}.

(** ** State of [ChatInterface] *)

Module Page.
(** The refs and the React state of the component.  [refs] is the part
    the message handlers work on.  A handler is taken as one step: it reads
    the state of the last render, and no other handler runs between its
    awaits. *)
Record t : Type := mk {
  refs : State;
  input : string;
  sessionId : string;
  microphoneActive : bool;
  isConnecting : bool;
  isConnected : bool;
  webSocketClient : option WebSocketClient.t;
  audioRecorderRef : option Recorder.t
}.

Definition initial : t :=
  mk initial EmptyString EmptyString false false false None None.

Definition with_refs (st : State) (p : t) : t :=
  mk st (input p) (sessionId p) (microphoneActive p) (isConnecting p)
    (isConnected p) (webSocketClient p) (audioRecorderRef p).

Definition with_input (s : string) (p : t) : t :=
  mk (refs p) s (sessionId p) (microphoneActive p) (isConnecting p)
    (isConnected p) (webSocketClient p) (audioRecorderRef p).

Definition with_sessionId (s : string) (p : t) : t :=
  mk (refs p) (input p) s (microphoneActive p) (isConnecting p)
    (isConnected p) (webSocketClient p) (audioRecorderRef p).

Definition with_microphoneActive (b : bool) (p : t) : t :=
  mk (refs p) (input p) (sessionId p) b (isConnecting p)
    (isConnected p) (webSocketClient p) (audioRecorderRef p).

Definition with_isConnecting (b : bool) (p : t) : t :=
  mk (refs p) (input p) (sessionId p) (microphoneActive p) b
    (isConnected p) (webSocketClient p) (audioRecorderRef p).

Definition with_isConnected (b : bool) (p : t) : t :=
  mk (refs p) (input p) (sessionId p) (microphoneActive p) (isConnecting p)
    b (webSocketClient p) (audioRecorderRef p).

Definition with_webSocketClient (c : option WebSocketClient.t) (p : t) : t :=
  mk (refs p) (input p) (sessionId p) (microphoneActive p) (isConnecting p)
    (isConnected p) c (audioRecorderRef p).

Definition with_audioRecorderRef (r : option Recorder.t) (p : t) : t :=
  mk (refs p) (input p) (sessionId p) (microphoneActive p) (isConnecting p)
    (isConnected p) (webSocketClient p) r.
End Page.

(** ** handleToggleMicrophone *)

(** The callback given to [new Recorder]: a captured buffer is sent as a
    binary frame if there is a socket, and dropped if there is none. *)
Definition recorderCallback (buffer : list byte) (p : Page.t) : Page.t :=
  match Page.webSocketClient p with
  | Some c =>
      Page.with_webSocketClient
        (Some (WebSocketClient.send (binary buffer) c)) p
  | None => p
  end.

Definition handleToggleMicrophone (dev : Devices) (p : Page.t) : Page.t :=
  if negb (Page.microphoneActive p) &&
     bool_decide (is_Some (Page.webSocketClient p))
  then
    let recorder := default Recorder.new (Page.audioRecorderRef p) in
    if getUserMedia dev then
      Page.with_microphoneActive true
        (Page.with_audioRecorderRef
           (Some (Recorder.start (worklet dev) recorder)) p)
    else
      Page.with_microphoneActive false
        (Page.with_audioRecorderRef (Some recorder) p)
  else
    match Page.audioRecorderRef p with
    | Some _ =>
        Page.with_microphoneActive false (Page.with_audioRecorderRef None p)
    | None => p
    end.

(** ** disconnectWebSocket *)

Definition disconnectWebSocket (dev : Devices) (p : Page.t) : Page.t :=
  let p1 := Page.with_isConnected false p in
  let p2 :=
    if Page.microphoneActive p1 then handleToggleMicrophone dev p1 else p1 in
  let p3 :=
    match Page.audioRecorderRef p2 with
    | Some _ => Page.with_audioRecorderRef None p2
    | None => p2
    end in
  let p4 :=
    Page.with_refs
      (with_audioPlayerRef (Player.clear <$> audioPlayerRef (Page.refs p3))
         (Page.refs p3)) p3 in
  match Page.webSocketClient p4 with
  | Some _ => Page.with_webSocketClient None p4
  | None => p4
  end.

(** ** handleConnect *)

(** [receiveLoop()] is called and not awaited: of it the step keeps the
    part that runs at once, the creation of the player; the frames of
    the socket are handled later, one [handleWSMessage] each. *)
Definition handleConnect (env : Env) (dev : Devices) (p : Page.t) : Page.t :=
  if Page.isConnected p then disconnectWebSocket dev p
  else
    let p1 := Page.with_isConnecting true p in
    let p2 := Page.with_refs (handleConnect_try env (Page.refs p1)) p1 in
    let p3 := Page.with_webSocketClient (Some WebSocketClient.new) p2 in
    let p4 := Page.with_isConnected true p3 in
    let p5 := Page.with_refs (initAudioPlayer (Page.refs p4)) p4 in
    Page.with_isConnecting false p5.

(** ** handleSend *)

Definition messageId (env : Env) : string :=
  "user-" +:+ pretty (Date_now env).

Definition handleSend (env : Env) (p : Page.t) : Page.t :=
  match Page.webSocketClient p with
  | Some c =>
      if negb (bool_decide (trim (Page.input p) = EmptyString)) &&
         Page.isConnected p
      then
        let '(userMessage, st1) :=
          alloc (Message.mk (messageId env) (Some "user") (Page.input p))
            (Page.refs p) in
        let st2 :=
          setMessages
            (with_messageMap
               (JSMap.set (messageId env) userMessage (messageMap st1)) st1) in
        Page.with_input EmptyString
          (Page.with_webSocketClient
             (Some (WebSocketClient.send
                      (text (JSON_stringify_user_message (Page.input p))) c))
             (Page.with_refs st2 p))
      else p
  | None => p
  end.

(** ** handleClear *)

(** [nanoid]: the string the call of [nanoid()] returns. *)
Definition handleClear (nanoid : string) (p : Page.t) : Page.t :=
  Page.with_sessionId nanoid
    (Page.with_refs
       (with_chatState [] (with_messageMap JSMap.empty (Page.refs p))) p).

(** ** What happens to a page *)

Inductive Action : Type :=
  | click_power (env : Env) (dev : Devices)
  | click_microphone (dev : Devices)
  | click_send (env : Env)
  | click_clear (nanoid : string)
  | type_input (value : string)
  | captured (buffer : list byte)
  | received (env : Env) (message : WSMessage.t)
  | received_audio (data : list byte).

(** ** components/action-buttons.tsx *)

(** [handleConnectToggle] of [ActionButtons]. *)
Definition handleConnectToggle {A} (isConnected : bool)
  (onConnect onDisconnect : A → A) (a : A) : A :=
  if isConnected then onDisconnect a else onConnect a.

(** The text of the button. *)
Definition buttonText (isConnected isConnecting : bool) : string :=
  if isConnecting then "Connecting..."
  else if isConnected then "Connected" else "Disconnected".

(** The text beside the dot in the header of the page. *)
Definition headerText (isConnected isConnecting : bool) : string :=
  if isConnected then "Connected"
  else if isConnecting then "Connecting..." else "Disconnected".

(** The handler of one action, as [ChatInterface] wires it: the power
    button gets [handleConnect] and [disconnectWebSocket] and is disabled
    while [isConnecting]; the microphone button is disabled while the
    page is not connected; the Enter key calls [handleSend] whatever the
    send button shows.  The last two actions are the two branches of the
    body of [receiveLoop]: a parsed text frame, and a binary frame, which
    is played if there is a player and the data make an [Int16Array]. *)
Definition act (a : Action) (p : Page.t) : Page.t :=
  match a with
  | click_power env dev =>
      if Page.isConnecting p then p
      else
        handleConnectToggle (Page.isConnected p) (handleConnect env dev)
          (disconnectWebSocket dev) p
  | click_microphone dev =>
      if Page.isConnected p then handleToggleMicrophone dev p else p
  | click_send env => handleSend env p
  | click_clear nanoid => handleClear nanoid p
  | type_input value => Page.with_input value p
  | captured buffer => recorderCallback buffer p
  | received env message =>
      Page.with_refs (handleWSMessage env message (Page.refs p)) p
  | received_audio data =>
      match audioPlayerRef (Page.refs p), Int16Array data with
      | Some player, Some samples =>
          Page.with_refs
            (with_audioPlayerRef (Some (Player.play samples player))
               (Page.refs p)) p
      | _, _ => p
      end
  end.

Definition session (actions : list Action) (p : Page.t) : Page.t :=
  foldl (fun p a => act a p) p actions.

(** ** components/message-bubble.tsx *)

Inductive BubbleStyle : Type := style_user | style_assistant | style_muted.

(** The class list chosen by the role, and whether the line Assistant is
    rendered above the content. *)
Definition bubbleStyle (role : option string) : BubbleStyle :=
  if strict_eq role "user" then style_user
  else if strict_eq role "assistant" then style_assistant
  else style_muted.

Definition bubbleHeader (role : option string) : bool :=
  strict_eq role "assistant".

(** The invariant of the pages a session reaches. *)
Record page_ok (p : Page.t) : Prop := mk_page_ok {
  ok_store : wf (Page.refs p);
  ok_shown : chatState (Page.refs p) = Snapshot (Page.refs p);
  ok_connecting : Page.isConnecting p = false;
  ok_connected :
    Page.isConnected p = true ↔ is_Some (Page.webSocketClient p);
  ok_recorder :
    is_Some (Page.audioRecorderRef p) → is_Some (Page.webSocketClient p);
  ok_microphone :
    Page.microphoneActive p = true → is_Some (Page.audioRecorderRef p);
  ok_capturing :
    ∀ r, Page.audioRecorderRef p = Some r → Recorder.capturing r = true →
         Page.microphoneActive p = true
}.

(** Every character of the string is one that [trim] strips. *)
Fixpoint blank (s : string) : bool :=
  match s with
  | EmptyString => true
  | String c s' => is_js_space c && blank s'
  end.

(** ** Notions for the loop and the speaker *)

Definition is_text (f : Env * Frame) : bool :=
  match f.2 with
  | text _ => true
  | binary _ => false
  end.

(** A frame that [new Int16Array] accepts: a binary frame of even
    length, or any text frame. *)
Definition playable (f : Env * Frame) : Prop :=
  match f.2 with
  | text _ => True
  | binary data => Nat.even (length data) = true
  end.

(** The part of the state that the display depends on. *)
Definition transcript (st : State)
  : list Message.t * JSMap.t nat * option nat * list Message.t :=
  (heap st, messageMap st, currentUserMessage st, chatState st).

(** The chunks a schedule enqueues, in order. *)
Definition enqueued (sched : list SpeakerOutput.Step) : list (list byte) :=
  omap (fun e => match e with
                 | SpeakerOutput.enqueue audioData => Some audioData
                 | _ => None
                 end) sched.

(** All the audio the speaker holds or has played: what the device got,
    then the provider, then the queue. *)
Definition audio (s : SpeakerOutput.t) : list byte :=
  SpeakerOutput.device s ++ SpeakerOutput._waveProvider s ++
  concat (SpeakerOutput._audioQueue s).

(** * The console client (class Program) *)

Module Program.

Inductive Output : Type :=
  | Write (value : string)
  | WriteLine (value : string).

(** ** GetConfiguredClient *)

(** The five variables read with [Environment.GetEnvironmentVariable]. *)
Record Environment : Type := mkEnvironment {
  AZURE_OPENAI_ENDPOINT : option string;
  AZURE_OPENAI_USE_ENTRA : option string;
  AZURE_OPENAI_DEPLOYMENT : option string;
  AZURE_OPENAI_API_KEY : option string;
  OPENAI_API_KEY : option string
}.

Inductive Credential : Type :=
  | DefaultAzureCredential
  | ApiKeyCredential (key : string).

(** The client a helper asks the SDK for: the arguments of the
    constructor and of [GetRealtimeConversationClient].  What the SDK
    constructors themselves reject (a text that is no URI, an empty key)
    is not modelled. *)
Inductive RealtimeConversationClient : Type :=
  | AzureOpenAIClient (endpoint : string) (credential : Credential)
      (deployment : option string)
  | OpenAIClient (credential : Credential) (model : string).

Inductive Exception : Type :=
  | InvalidOperationException (message : string)
  | ArgumentOutOfRangeException.

(** What a call leaves on the console and how it ends. *)
Definition Outcome : Type :=
  list Output * (RealtimeConversationClient + Exception).

(** [key[..5]]: the first five characters; a shorter string is out of
    range. *)
Definition first5 (key : string) : option string :=
  if decide (5 ≤ String.length key) then Some (String.substring 0 5 key)
  else None.

(** The line about the deployment: [string.IsNullOrEmpty] decides. *)
Definition deploymentLine (aoaiDeployment : option string) : Output :=
  match aoaiDeployment with
  | Some (String c d) =>
      WriteLine
        (" * Using deployment (AZURE_OPENAI_DEPLOYMENT): " +:+ String c d)
  | _ => WriteLine " * Using no deployment (AZURE_OPENAI_DEPLOYMENT)"
  end.

Definition endpointLine (aoaiEndpoint : string) : Output :=
  WriteLine
    (" * Connecting to Azure OpenAI endpoint (AZURE_OPENAI_ENDPOINT): " +:+
     aoaiEndpoint).

Definition GetConfiguredClientForAzureOpenAIWithEntra
  (aoaiEndpoint : string) (aoaiDeployment : option string) : Outcome :=
  ([endpointLine aoaiEndpoint;
    WriteLine " * Using Entra token-based authentication (AZURE_OPENAI_USE_ENTRA)";
    deploymentLine aoaiDeployment],
   inl (AzureOpenAIClient aoaiEndpoint DefaultAzureCredential aoaiDeployment)).

Definition GetConfiguredClientForAzureOpenAIWithKey
  (aoaiEndpoint : string) (aoaiDeployment : option string)
  (aoaiApiKey : string) : Outcome :=
  match first5 aoaiApiKey with
  | Some shown =>
      ([endpointLine aoaiEndpoint;
        WriteLine (" * Using API key (AZURE_OPENAI_API_KEY): " +:+ shown +:+ "**");
        deploymentLine aoaiDeployment],
       inl (AzureOpenAIClient aoaiEndpoint (ApiKeyCredential aoaiApiKey)
              aoaiDeployment))
  | None => ([endpointLine aoaiEndpoint], inr ArgumentOutOfRangeException)
  end.

Definition GetConfiguredClientForOpenAIWithKey (oaiApiKey : string)
  : Outcome :=
  let oaiEndpoint := "https://api.openai.com/v1" in
  let line1 :=
    WriteLine
      (" * Connecting to OpenAI endpoint (OPENAI_ENDPOINT): " +:+ oaiEndpoint) in
  match first5 oaiApiKey with
  | Some shown =>
      ([line1;
        WriteLine (" * Using API key (OPENAI_API_KEY): " +:+ shown +:+ "**")],
       inl (OpenAIClient (ApiKeyCredential oaiApiKey)
              "gpt-4o-realtime-preview-2024-10-01"))
  | None => ([line1], inr ArgumentOutOfRangeException)
  end.

Section GetConfiguredClient.

(** [bool.TryParse(value, out result)]: [Some result] when it returns
    true. *)
Variable TryParse : option string → option bool.

Definition GetConfiguredClient (e : Environment) : Outcome :=
  match AZURE_OPENAI_ENDPOINT e with
  | Some aoaiEndpoint =>
      if bool_decide (TryParse (AZURE_OPENAI_USE_ENTRA e) = Some true) then
        GetConfiguredClientForAzureOpenAIWithEntra aoaiEndpoint
          (AZURE_OPENAI_DEPLOYMENT e)
      else
        match AZURE_OPENAI_API_KEY e with
        | Some aoaiApiKey =>
            GetConfiguredClientForAzureOpenAIWithKey aoaiEndpoint
              (AZURE_OPENAI_DEPLOYMENT e) aoaiApiKey
        | None =>
            ([], inr (InvalidOperationException
                        "AZURE_OPENAI_ENDPOINT configured without AZURE_OPENAI_USE_ENTRA=true or AZURE_OPENAI_API_KEY."))
        end
  | None =>
      match OPENAI_API_KEY e with
      | Some oaiApiKey => GetConfiguredClientForOpenAIWithKey oaiApiKey
      | None =>
          ([], inr (InvalidOperationException
                      ("No environment configuration present. Please provide one of:" +:+
                       String "010"
                         " - AZURE_OPENAI_ENDPOINT with AZURE_OPENAI_USE_ENTRA=true or AZURE_OPENAI_API_KEY" +:+
                       String "010" " - OPENAI_API_KEY")))
      end
  end.

End GetConfiguredClient.

(** [bool.TryParse] on code units below 256: white space and null
    characters are trimmed from both ends, and what is left is compared
    with True and False whatever the case of its letters. *)
Definition is_trimmed (c : ascii) : bool :=
  bool_decide
    (c ∈ ["000"%char; "009"%char; "010"%char; "011"%char; "012"%char;
          "013"%char; " "%char; "133"%char; "160"%char]).

Fixpoint trimLeft (s : string) : string :=
  match s with
  | String c s' => if is_trimmed c then trimLeft s' else s
  | EmptyString => EmptyString
  end.

Definition lower (c : ascii) : ascii :=
  let n := Ascii.N_of_ascii c in
  if ((65 <=? n) && (n <=? 90))%N then Ascii.ascii_of_N (n + 32) else c.

Fixpoint lowered (s : string) : string :=
  match s with
  | String c s' => String (lower c) (lowered s')
  | EmptyString => EmptyString
  end.

Definition Boolean_TryParse (value : option string) : option bool :=
  match value with
  | Some s =>
      let t := lowered (String.rev (trimLeft (String.rev (trimLeft s)))) in
      if String.eqb t "true" then Some true
      else if String.eqb t "false" then Some false
      else None
  | None => None
  end.

(** ** ProcessUpdatesAsync *)

(** The updates the loop tells apart by their class; the two times come
    as the text that the interpolated string prints. *)
Inductive ConversationUpdate : Type :=
  | ConversationSessionStartedUpdate
  | ConversationInputSpeechStartedUpdate (AudioStartTime : string)
  | ConversationInputSpeechFinishedUpdate (AudioEndTime : string)
  | ConversationInputTranscriptionFinishedUpdate (Transcript : string)
  | ConversationItemStreamingPartDeltaUpdate (Text : option string)
      (AudioBytes : option (list byte))
  | ConversationItemStreamingFinishedUpdate
  | ConversationErrorUpdate (Message : string) (RawContent : string)
  | OtherUpdate.

(** The objects the loop acts on: the console, the microphone stream
    (recording or stopped), the speaker, the flag [isPlayingResponse],
    the count of [conversationCompletedSemaphore] and the local
    [responseComplete]. *)
Record t : Type := mk {
  console : list Output;
  recording : bool;
  speakerOutput : SpeakerOutput.t;
  isPlayingResponse : bool;
  conversationCompletedSemaphore : nat;
  responseComplete : bool
}.

(** The state when [Main] starts the loop: [new SemaphoreSlim(0, 1)]. *)
Definition start (speaker : SpeakerOutput.t) : t :=
  mk [] true speaker false 0 false.

Definition print (lines : list Output) (s : t) : t :=
  mk (console s ++ lines) (recording s) (speakerOutput s)
    (isPlayingResponse s) (conversationCompletedSemaphore s)
    (responseComplete s).

(** [Release()] of a semaphore whose maximum count is 1: [None] stands
    for the SemaphoreFullException. *)
Definition Release (s : t) : option t :=
  if decide (conversationCompletedSemaphore s < 1) then
    Some (mk (console s) (recording s) (speakerOutput s)
            (isPlayingResponse s) (S (conversationCompletedSemaphore s))
            (responseComplete s))
  else None.

Inductive Flow : Type :=
  | next (s : t)
  | break (s : t)
  | SemaphoreFullException (s : t).

(** The body of the [await foreach]. *)
Definition body (update : ConversationUpdate) (s : t) : Flow :=
  match update with
  | ConversationSessionStartedUpdate =>
      next (print [WriteLine " <<< Connected: session started"] s)
  | ConversationInputSpeechStartedUpdate AudioStartTime =>
      next (print
              [WriteLine (" <<< Start of speech detected @ " +:+ AudioStartTime)]
              s)
  | ConversationInputSpeechFinishedUpdate AudioEndTime =>
      let s1 :=
        print [WriteLine (" <<< End of speech detected @ " +:+ AudioEndTime)]
          s in
      next (mk (console s1) false (speakerOutput s1) (isPlayingResponse s1)
              (conversationCompletedSemaphore s1) (responseComplete s1))
  | ConversationInputTranscriptionFinishedUpdate Transcript =>
      next (print [WriteLine (" >>> USER: " +:+ Transcript)] s)
  | ConversationItemStreamingPartDeltaUpdate Text AudioBytes =>
      let s1 :=
        match Text with
        | Some (String c rest) => print [Write (String c rest)] s
        | _ => s
        end in
      match AudioBytes with
      | Some bytes =>
          next (mk (console s1) (recording s1)
                  (SpeakerOutput.EnqueueForPlayback bytes (speakerOutput s1))
                  true (conversationCompletedSemaphore s1)
                  (responseComplete s1))
      | None => next s1
      end
  | ConversationItemStreamingFinishedUpdate =>
      let s1 :=
        print [WriteLine EmptyString; WriteLine " <<< Response complete"] s in
      let s2 :=
        mk (console s1) (recording s1) (speakerOutput s1)
          (isPlayingResponse s1) (conversationCompletedSemaphore s1) true in
      match Release s2 with
      | Some s3 => break s3
      | None => SemaphoreFullException s2
      end
  | ConversationErrorUpdate Message RawContent =>
      let s1 :=
        print [WriteLine EmptyString; WriteLine (" <<< ERROR: " +:+ Message);
               WriteLine RawContent] s in
      if responseComplete s1 then break s1
      else
        match Release s1 with
        | Some s2 => break s2
        | None => SemaphoreFullException s1
        end
  | OtherUpdate => next s
  end.

(** The loop over the updates of the session: the state it ends in, and
    whether it ended by the exception. *)
Fixpoint ProcessUpdatesAsync (updates : list ConversationUpdate) (s : t)
  : t * bool :=
  match updates with
  | [] => (s, false)
  | update :: updates' =>
      match body update s with
      | next s' => ProcessUpdatesAsync updates' s'
      | break s' => (s', false)
      | SemaphoreFullException s' => (s', true)
      end
  end.

(** An update that ends the loop. *)
Definition final (update : ConversationUpdate) : bool :=
  match update with
  | ConversationItemStreamingFinishedUpdate
  | ConversationErrorUpdate _ _ => true
  | _ => false
  end.

(** The updates up to the first that ends the loop, that one included. *)
Fixpoint handled (updates : list ConversationUpdate)
  : list ConversationUpdate :=
  match updates with
  | [] => []
  | update :: updates' =>
      if final update then [update] else update :: handled updates'
  end.

(** The audio of the deltas of a list of updates. *)
Definition audioBytes (updates : list ConversationUpdate)
  : list (list byte) :=
  omap (fun update =>
          match update with
          | ConversationItemStreamingPartDeltaUpdate _ (Some bytes) =>
              Some bytes
          | _ => None
          end) updates.

(** An update that tells the end of the user's speech. *)
Definition speechFinished (update : ConversationUpdate) : bool :=
  match update with
  | ConversationInputSpeechFinishedUpdate _ => true
  | _ => false
  end.

End Program.

(** * The connection manager of the middle-tier notes *)

Module WebSocketConnectionManager.

(** A socket and a session are objects; the model names each by a
    number.  [calls] lists what the manager has called on them. *)
Inductive Call : Type :=
  | CloseAsync (socket : nat)
  | Dispose (session : nat).

Record t : Type := mk {
  _connections : gmap string nat;
  _sessions : gmap string nat;
  calls : list Call
}.

Definition new : t := mk ∅ ∅ [].

(** [ConcurrentDictionary.TryAdd]: a key that is present keeps its
    value. *)
Definition TryAdd (key : string) (value : nat) (d : gmap string nat)
  : gmap string nat :=
  match d !! key with
  | Some _ => d
  | None => <[key := value]> d
  end.

(** [NewGuid]: the text of [Guid.NewGuid()]. *)
Definition AddConnection (NewGuid : string) (socket : nat) (m : t)
  : string * t :=
  (NewGuid,
   mk (TryAdd NewGuid socket (_connections m)) (_sessions m) (calls m)).

Definition GetConnection (connectionId : string) (m : t) : option nat :=
  _connections m !! connectionId.

Definition AddSession (connectionId : string) (session : nat) (m : t) : t :=
  mk (_connections m) (TryAdd connectionId session (_sessions m)) (calls m).

Definition GetSession (connectionId : string) (m : t) : option nat :=
  _sessions m !! connectionId.

(** [closes]: whether [CloseAsync] completes; if it throws, the
    exception leaves the method ([true] in the result). *)
Definition RemoveConnectionAsync (closes : bool) (connectionId : string)
  (m : t) : t * bool :=
  let m1 :=
    match _connections m !! connectionId with
    | Some socket =>
        mk (delete connectionId (_connections m)) (_sessions m)
          (calls m ++ [CloseAsync socket])
    | None => m
    end in
  if bool_decide (is_Some (_connections m !! connectionId)) && negb closes
  then (m1, true)
  else
    match _sessions m1 !! connectionId with
    | Some session =>
        (mk (_connections m1) (delete connectionId (_sessions m1))
           (calls m1 ++ [Dispose session]), false)
    | None => (m1, false)
    end.

(** The calls a controller makes on the manager. *)
Inductive Op : Type :=
  | add_connection (NewGuid : string) (socket : nat)
  | add_session (connectionId : string) (session : nat)
  | remove_connection (closes : bool) (connectionId : string).

Definition step (op : Op) (m : t) : t :=
  match op with
  | add_connection NewGuid socket => (AddConnection NewGuid socket m).2
  | add_session connectionId session => AddSession connectionId session m
  | remove_connection closes connectionId =>
      (RemoveConnectionAsync closes connectionId m).1
  end.

Definition run (ops : list Op) (m : t) : t :=
  foldl (fun m op => step op m) m ops.

(** The connections a list of calls registers, the sockets on which a
    list of calls closes, and the sessions it disposes. *)
Definition added (ops : list Op) : list (string * nat) :=
  omap (fun op => match op with
                  | add_connection NewGuid socket => Some (NewGuid, socket)
                  | _ => None
                  end) ops.

Definition closed (cs : list Call) : list nat :=
  omap (fun c => match c with CloseAsync socket => Some socket | _ => None end)
    cs.

Definition disposed (cs : list Call) : list nat :=
  omap (fun c => match c with Dispose session => Some session | _ => None end)
    cs.

End WebSocketConnectionManager.

(** What holds of a manager after the calls [ops]. *)
Record manager_ok (ops : list WebSocketConnectionManager.Op)
  (m : WebSocketConnectionManager.t) : Prop := mk_manager_ok {
  ok_registered :
    ∀ g s, WebSocketConnectionManager._connections m !! g = Some s →
           (g, s) ∈ WebSocketConnectionManager.added ops;
  ok_closed :
    ∀ s, s ∈ WebSocketConnectionManager.closed
               (WebSocketConnectionManager.calls m) →
         ∃ g, (g, s) ∈ WebSocketConnectionManager.added ops ∧
              WebSocketConnectionManager._connections m !! g = None;
  ok_once :
    NoDup (WebSocketConnectionManager.closed
             (WebSocketConnectionManager.calls m));
  ok_kept :
    ∀ g s, (g, s) ∈ WebSocketConnectionManager.added ops →
           WebSocketConnectionManager._connections m !! g = Some s ∨
           s ∈ WebSocketConnectionManager.closed
                 (WebSocketConnectionManager.calls m)
}.

(** A run of calls in which every [NewGuid] is new and every socket is
    registered once. *)
Definition sample_ops : list WebSocketConnectionManager.Op :=
  [WebSocketConnectionManager.add_connection "a" 1;
   WebSocketConnectionManager.add_session "a" 7;
   WebSocketConnectionManager.add_connection "b" 2;
   WebSocketConnectionManager.remove_connection false "a";
   WebSocketConnectionManager.remove_connection true "a";
   WebSocketConnectionManager.remove_connection true "a"].

(** * Notions of the order, the loop and the connect *)












(** * Properties *)

(** ** The built-in map *)

Section JSMapFacts.
Context {V : Type}.
Implicit Types (m : JSMap.t V) (k : string) (v : V).

Lemma get_None m k : JSMap.get k m = None ↔ k ∉ JSMap.keys m.
Proof.
  induction m as [|[k' v'] m IH]; simpl.
  - split; [intros _; apply not_elem_of_nil | done].
  - case_decide; subst.
    + split; [done | intros Hk; exfalso; apply Hk; left].
    + rewrite IH. csimpl. rewrite not_elem_of_cons.
      split; [by intros | by intros [_ ?]].
Qed.

Lemma get_Some_elem m k v : JSMap.get k m = Some v → (k, v) ∈ m.
Proof.
  induction m as [|[k' v'] m IH]; simpl; [done|].
  case_decide; subst.
  - intros [= ->]. left.
  - intros. right. auto.
Qed.

Lemma elem_get m k v :
  NoDup (JSMap.keys m) → (k, v) ∈ m → JSMap.get k m = Some v.
Proof.
  induction m as [|[k' v'] m IH]; simpl; intros Hnd Hin.
  - by apply elem_of_nil in Hin.
  - apply NoDup_cons in Hnd as [Hk Hnd].
    apply elem_of_cons in Hin as [[= <- <-]|Hin].
    + by rewrite decide_True.
    + rewrite decide_False; [auto|].
      intros ->. apply Hk. apply (list_elem_of_fmap_2 fst) in Hin. done.
Qed.

Lemma get_set_eq m k v : JSMap.get k (JSMap.set k v m) = Some v.
Proof.
  induction m as [|[k' v'] m IH]; simpl.
  - by rewrite decide_True.
  - case_decide; simpl; subst.
    + by rewrite decide_True.
    + by rewrite decide_False.
Qed.

Lemma get_set_ne m k k' v :
  k ≠ k' → JSMap.get k' (JSMap.set k v m) = JSMap.get k' m.
Proof.
  intros Hne. induction m as [|[k0 v0] m IH]; simpl.
  - by rewrite decide_False.
  - destruct (decide (k0 = k)) as [->|]; simpl.
    + by rewrite !decide_False.
    + by rewrite IH.
Qed.



Lemma set_absent m k v : JSMap.get k m = None → JSMap.set k v m = m ++ [(k, v)].
Proof.
  induction m as [|[k' v'] m IH]; simpl; [done|].
  case_decide; [done|]. intros H'. f_equal. auto.
Qed.

End JSMapFacts.

Section JSMapShape.
Context {V : Type}.
Implicit Types (m : JSMap.t V) (k : string) (v : V).

Lemma set_present m k v v0 :
  JSMap.get k m = Some v0 →
  ∃ m1 m2, m = m1 ++ (k, v0) :: m2 ∧ (k ∉ m1.*1) ∧
           JSMap.set k v m = m1 ++ (k, v) :: m2.
Proof.
  induction m as [|[k' v'] m IH]; simpl; [done|].
  case_decide; subst.
  - intros [= ->]. exists [], m. split_and!; [done | apply not_elem_of_nil | done].
  - intros Hget. apply IH in Hget as (m1 & m2 & -> & Hk & ->).
    exists ((k', v') :: m1), m2. split_and!; [done | | done].
    csimpl. rewrite not_elem_of_cons. auto.
Qed.

Lemma filter_all {A} (f : A → bool) (l : list A) :
  (∀ x, x ∈ l → f x = true) → List.filter f l = l.
Proof.
  induction l as [|x l IH]; simpl; [done|]. intros Hall.
  rewrite (Hall x) by left. f_equal. apply IH. intros y Hy. apply Hall. by right.
Qed.

Lemma delete_filter m k :
  NoDup m.*1 →
  JSMap.delete k m = List.filter (fun kv => negb (bool_decide (kv.1 = k))) m.
Proof.
  induction m as [|[k' v'] m IH]; simpl; [done|].
  intros [Hk Hnd]%NoDup_cons. case_decide; subst.
  - rewrite bool_decide_eq_true_2 by done. simpl.
    symmetry. apply filter_all. intros [k1 v1] Hin. simpl.
    rewrite bool_decide_eq_false_2; [done|].
    intros ->. apply Hk. by apply (list_elem_of_fmap_2 fst) in Hin.
  - rewrite bool_decide_eq_false_2 by done. simpl. f_equal. auto.
Qed.

Lemma filter_sublist {A} (f : A → bool) (l : list A) :
  List.filter f l `sublist_of` l.
Proof.
  induction l as [|x l IH]; simpl; [done|].
  destruct (f x); by constructor.
Qed.

Lemma keys_filter_NoDup m (f : string * V → bool) :
  NoDup m.*1 → NoDup (List.filter f m).*1.
Proof.
  intros Hnd. eapply sublist_NoDup; [done|]. apply fmap_sublist, filter_sublist.
Qed.

Lemma foldl_delete_filter m (ks : list string) :
  NoDup m.*1 →
  foldl (fun m key => JSMap.delete key m) m ks =
  List.filter (fun kv => negb (bool_decide (kv.1 ∈ ks))) m.
Proof.
  revert m. induction ks as [|k ks IH]; intros m Hnd; simpl.
  - symmetry. by apply filter_all.
  - rewrite IH, delete_filter by (rewrite ?delete_filter; auto using keys_filter_NoDup).
    clear. induction m as [|[k' v'] m IH]; simpl; [done|].
    destruct (decide (k' = k)) as [->|Hne].
    + rewrite (bool_decide_eq_true_2 (k = k)) by done. simpl.
      rewrite (bool_decide_eq_true_2 (k ∈ k :: ks)) by left. done.
    + rewrite (bool_decide_eq_false_2 (k' = k)) by done. simpl.
      rewrite IH. 
      destruct (decide (k' ∈ ks)) as [Hin|Hnin].
      * rewrite (bool_decide_eq_true_2 (k' ∈ ks)) by done.
        rewrite (bool_decide_eq_true_2 (k' ∈ k :: ks)) by (by right). done.
      * rewrite (bool_decide_eq_false_2 (k' ∈ ks)) by done.
        rewrite (bool_decide_eq_false_2 (k' ∈ k :: ks)); [done|].
        rewrite not_elem_of_cons. done.
Qed.

End JSMapShape.

(** ** The object store *)

Lemma wf_initial : wf initial.
Proof.
  split; simpl; try apply NoDup_nil_2.
  - intros k a Hin. by apply elem_of_nil in Hin.
  - done.
Qed.

Lemma wf_ref_lt st :
  wf st → ∀ k a, (k, a) ∈ messageMap st → a < length (heap st).
Proof.
  intros Hwf k a Hin. destruct (wf_ids st Hwf k a Hin) as (m & Hm & _).
  by apply lookup_lt_Some in Hm.
Qed.

Lemma wf_setMessages st : wf st → wf (setMessages st).
Proof. intros [? ? ? ?]. by split. Qed.

(** In-place update of an object that keeps its id. *)
Lemma wf_alter st f a :
  (∀ x, Message.id (f x) = Message.id x) →
  wf st → wf (with_heap (alter f a (heap st)) st).
Proof.
  intros Hf [Hk Hr Hi Hc]. split; simpl; auto.
  - intros k b Hin. destruct (Hi k b Hin) as (m & Hm & Hid).
    destruct (decide (a = b)) as [->|Hne].
    + exists (f m). rewrite list_lookup_alter_eq, Hm. split; [done|].
      by rewrite Hf.
    + exists m. by rewrite list_lookup_alter_ne.
  - intros b Hb. rewrite length_alter. auto.
Qed.

(** A new object filed under its own id. *)
Lemma wf_file st x c :
  wf st →
  (c = currentUserMessage st ∨ c = Some (length (heap st))) →
  wf (filed x c st).
Proof.
  intros Hwf Hc. unfold filed. pose proof (wf_ref_lt st Hwf) as Hlt.
  destruct Hwf as [Hk Hr Hi Hcur].
  assert (Hfresh : length (heap st) ∉ (messageMap st).*2).
  { intros ((k & a) & Heq & Hin)%list_elem_of_fmap. simpl in Heq. subst a.
    apply Hlt in Hin. lia. }
  destruct (JSMap.get (Message.id x) (messageMap st)) as [v0|] eqn:Hget.
  - destruct (set_present _ _ (length (heap st)) _ Hget)
      as (m1 & m2 & Hm & Hk1 & Hset).
    rewrite Hset. unfold JSMap.keys, JSMap.values in *. rewrite Hm in *.
    split; simpl; unfold JSMap.keys, JSMap.values.
    + revert Hk. by rewrite !fmap_app, !fmap_cons.
    + revert Hr Hfresh. rewrite !fmap_app, !fmap_cons. simpl.
      rewrite !NoDup_app, !NoDup_cons, !not_elem_of_app, !not_elem_of_cons.
      intros (? & Hd & ? & ?) (? & ? & ?). split_and!; auto.
      intros y Hy [->|Hy2]%elem_of_cons; [done|].
      apply (Hd y Hy). by right.
    + intros k a Hin.
      assert ((k, a) = (Message.id x, length (heap st)) ∨
              (k, a) ∈ m1 ++ (Message.id x, v0) :: m2) as [[= -> ->]|Hin'].
      { revert Hin. rewrite !elem_of_app, !elem_of_cons.
        intros [?|[?|?]]; auto. }
      * exists x. split; [|done]. by apply list_lookup_middle.
      * destruct (Hi k a Hin') as (m & Hm' & Hid). exists m. split; [|done].
        by apply lookup_app_l_Some.
    + intros a Ha. rewrite length_app. simpl.
      destruct Hc as [->| ->]; [apply Hcur in Ha | injection Ha as <-]; lia.
  - rewrite (set_absent _ _ _ Hget). unfold JSMap.keys, JSMap.values in *.
    apply get_None in Hget. unfold JSMap.keys in Hget.
    split; simpl; unfold JSMap.keys, JSMap.values.
    + rewrite fmap_app. apply NoDup_app. split_and!; [done | | apply NoDup_singleton].
      intros y Hy ->%list_elem_of_singleton. done.
    + rewrite fmap_app. apply NoDup_app. split_and!; [done | | apply NoDup_singleton].
      intros y Hy ->%list_elem_of_singleton. done.
    + intros k a [Hin|[= -> ->]%list_elem_of_singleton]%elem_of_app.
      * destruct (Hi k a Hin) as (m & Hm' & Hid). exists m. split; [|done].
        by apply lookup_app_l_Some.
      * exists x. split; [|done]. by apply list_lookup_middle.
    + intros a Ha. rewrite length_app. simpl.
      destruct Hc as [->| ->]; [apply Hcur in Ha | injection Ha as <-]; lia.
Qed.

(** Entries taken out of the map. *)
Lemma wf_filter st (f : string * nat → bool) :
  wf st → wf (with_messageMap (List.filter f (messageMap st)) st).
Proof.
  intros [Hk Hr Hi Hc]. split; simpl; auto.
  - by apply keys_filter_NoDup.
  - eapply sublist_NoDup; [done|]. apply fmap_sublist, filter_sublist.
  - intros k a Hin. apply Hi.
    eapply elem_of_sublist; [done | apply filter_sublist].
Qed.

Lemma wf_with_audioPlayerRef st p : wf st → wf (with_audioPlayerRef p st).
Proof. intros [? ? ? ?]. by split. Qed.

Lemma same_key_same_ref {V} (m : JSMap.t V) k v v' :
  NoDup m.*1 → (k, v) ∈ m → (k, v') ∈ m → v = v'.
Proof.
  intros Hnd H1 H2.
  apply (elem_get _ _ _ Hnd) in H1. apply (elem_get _ _ _ Hnd) in H2.
  congruence.
Qed.

(** The two [forEach] loops of the connected case leave exactly the
    entries that the test of the first loop rejects. *)
Lemma remove_connecting st :
  NoDup (JSMap.keys (messageMap st)) →
  foldl (fun m key => JSMap.delete key m) (messageMap st) (messagesToRemove st)
  = List.filter (fun kv => negb (isConnecting st kv)) (messageMap st).
Proof.
  intros Hnd. rewrite foldl_delete_filter by done.
  apply List.filter_ext_in. intros [k a] Hin%list_elem_of_In. f_equal.
  unfold messagesToRemove. simpl.
  destruct (isConnecting st (k, a)) eqn:Hp.
  - apply bool_decide_eq_true_2. apply list_elem_of_fmap. exists (k, a).
    split; [done|]. apply list_elem_of_In, List.filter_In. split; [by apply list_elem_of_In | done].
  - apply bool_decide_eq_false_2.
    intros ([k' a'] & Heq & Hin')%list_elem_of_fmap. simpl in Heq. subst k'.
    apply list_elem_of_In, List.filter_In in Hin' as [Hin' Hp'].
    apply list_elem_of_In in Hin'.
    rewrite (same_key_same_ref _ _ _ _ Hnd Hin Hin') in Hp. congruence.
Qed.

(** ** The cases of the switch *)

Lemma truthy_Some i : truthy (Some i) = true ↔ i ≠ EmptyString.
Proof.
  simpl. destruct (String.eqb_spec i "") as [->|Hne]; simpl; split; congruence.
Qed.

Lemma strict_eq_true v lit : strict_eq v lit = true ↔ v = Some lit.
Proof. unfold strict_eq. apply bool_decide_eq_true. Qed.

Lemma strict_eq_false v lit : strict_eq v lit = false ↔ v ≠ Some lit.
Proof. unfold strict_eq. apply bool_decide_eq_false. Qed.

Lemma handle_transcription env message st a :
  WSMessage.type message = Some "transcription" →
  truthy (WSMessage.id message) = true →
  currentUserMessage st = Some a →
  handleWSMessage env message st =
  setMessages (assign_content a (or_empty (WSMessage.text message)) st).
Proof.
  intros Hty Hid Hcur. unfold handleWSMessage, case_transcription.
  by rewrite Hty, Hid, Hcur.
Qed.

Lemma handle_text_delta_present env message st i a :
  WSMessage.type message = Some "text_delta" →
  WSMessage.id message = Some i → i ≠ EmptyString →
  JSMap.get i (messageMap st) = Some a →
  handleWSMessage env message st =
  setMessages (append_content a (or_empty (WSMessage.delta message)) st).
Proof.
  intros Hty Hid Hi%truthy_Some Hget. unfold handleWSMessage, case_text_delta.
  by rewrite Hty, Hid, Hi, Hget.
Qed.

Lemma handle_text_delta_absent env message st i :
  WSMessage.type message = Some "text_delta" →
  WSMessage.id message = Some i → i ≠ EmptyString →
  JSMap.get i (messageMap st) = None →
  handleWSMessage env message st =
  setMessages (filed (newMessage i message) (currentUserMessage st) st).
Proof.
  intros Hty Hid Hi%truthy_Some Hget. unfold handleWSMessage, case_text_delta.
  by rewrite Hty, Hid, Hi, Hget.
Qed.

Lemma handle_connected env message st :
  WSMessage.type message = Some "control" →
  WSMessage.action message = Some "connected" →
  truthy (WSMessage.greeting message) = true →
  wf st →
  let st2 := filed (statusMessage env) (currentUserMessage st) st in
  handleWSMessage env message st =
  setMessages
    (with_messageMap
       (List.filter (fun kv => negb (isConnecting st2 kv)) (messageMap st2))
       st2).
Proof.
  intros Hty Hact Hg Hwf st2.
  rewrite <- remove_connecting.
  - unfold handleWSMessage, case_control. by rewrite Hty, Hact, Hg.
  - apply wf_keys, wf_file; auto.
Qed.

Lemma handle_speech_started env message st :
  WSMessage.type message = Some "control" →
  WSMessage.action message = Some "speech_started" →
  handleWSMessage env message st =
  setMessages
    (filed (placeholder env) (Some (length (heap st)))
       (with_audioPlayerRef (Player.clear <$> audioPlayerRef st) st)).
Proof.
  intros Hty Hact. unfold handleWSMessage, case_control.
  by rewrite Hty, Hact.
Qed.

Lemma handle_effect env message st :
  effect env message st (handleWSMessage env message st).
Proof.
  unfold handleWSMessage.
  destruct (strict_eq (WSMessage.type message) "transcription") eqn:Ht;
    [|destruct (strict_eq (WSMessage.type message) "text_delta") eqn:Hd;
      [|destruct (strict_eq (WSMessage.type message) "control") eqn:Hc]].
  - apply strict_eq_true in Ht.
    assert (Hobs : observed (env, message) = None)
      by (unfold observed; by rewrite Ht).
    unfold case_transcription.
    destruct (truthy (WSMessage.id message)) eqn:Hid; [|by constructor].
    destruct (currentUserMessage st) eqn:Hcur; [|by constructor].
    exact (effect_assign env message st _ Ht Hid Hcur).
  - unfold case_text_delta.
    destruct (WSMessage.id message) as [i|] eqn:Hid;
      [|constructor; unfold observed; by rewrite Hd, Hid].
    destruct (truthy (Some i)) eqn:Hi;
      [|constructor; unfold observed; by rewrite Hd, Hid, Hi].
    apply truthy_Some in Hi. apply strict_eq_true in Hd.
    destruct (JSMap.get i (messageMap st)) eqn:Hget.
    + exact (effect_append env message st i _ Hd Hid Hi Hget).
    + exact (effect_create env message st i Hd Hid Hi Hget).
  - unfold case_control.
    destruct (strict_eq (WSMessage.action message) "connected" &&
              truthy (WSMessage.greeting message)) eqn:Hcg.
    + apply strict_eq_true in Hc.
      apply andb_true_iff in Hcg as [Hact%strict_eq_true Hg].
      exact (effect_connected env message st Hc Hact Hg).
    + destruct (strict_eq (WSMessage.action message) "speech_started") eqn:Hs;
        [|constructor; unfold observed; by rewrite Hd, Hc, Hcg, Hs].
      apply strict_eq_true in Hs, Hc.
      exact (effect_speech_started env message st Hc Hs).
  - constructor. unfold observed. by rewrite Hd, Hc.
Qed.

(** Every handled message leaves a well-formed store. *)
Lemma wf_handleWSMessage env message st :
  wf st → wf (handleWSMessage env message st).
Proof.
  intros Hwf. destruct (handle_effect env message st); try done.
  - by apply wf_setMessages, wf_alter.
  - by apply wf_setMessages, wf_alter.
  - apply wf_setMessages, wf_file; auto.
  - cbv zeta. rewrite remove_connecting by (apply wf_keys, wf_file; auto).
    apply wf_setMessages, wf_filter, wf_file; auto.
  - apply wf_setMessages, wf_file; [by apply wf_with_audioPlayerRef | by right].
Qed.

Lemma handleAll_cons env message evs st :
  handleAll ((env, message) :: evs) st =
  handleAll evs (handleWSMessage env message st).
Proof. done. Qed.


Lemma wf_handleAll evs st : wf st → wf (handleAll evs st).
Proof.
  revert st. induction evs as [|[env message] evs IH]; intros st Hwf; [done|].
  apply IH. by apply wf_handleWSMessage.
Qed.

(** ** Snapshot *)

Lemma append_assoc (s1 s2 s3 : string) :
  (s1 +:+ s2) +:+ s3 = s1 +:+ (s2 +:+ s3).
Proof.
  induction s1 as [|c s1 IH]; [done|].
  change (String c ((s1 +:+ s2) +:+ s3) = String c (s1 +:+ s2 +:+ s3)).
  by f_equal.
Qed.

Lemma append_empty_r (s : string) : s +:+ EmptyString = s.
Proof.
  induction s as [|c s IH]; [done|].
  change (String c (s +:+ EmptyString) = String c s). by f_equal.
Qed.

Lemma normalize_id m : Message.id (normalize m) = Message.id m.
Proof. unfold normalize. by destruct (_ && _). Qed.

Lemma normalize_content m : Message.content (normalize m) = Message.content m.
Proof. unfold normalize. by destruct (_ && _). Qed.

Lemma Snapshot_setMessages st : Snapshot (setMessages st) = Snapshot st.
Proof. done. Qed.

Lemma find_id_entries (h : list Message.t) (l : JSMap.t nat) i :
  (∀ k a, (k, a) ∈ l → ∃ m, h !! a = Some m ∧ Message.id m = k) →
  find_id i (normalize <$> omap (fun a => h !! a) l.*2) =
  normalize <$> (JSMap.get i l ≫= fun a => h !! a).
Proof.
  induction l as [|[k a] l IH]; intros Hl; [done|].
  destruct (Hl k a) as (m & Hm & Hid); [left|].
  csimpl. rewrite Hm. csimpl. unfold find_id in *. simpl.
  rewrite normalize_id, Hid.
  destruct (String.eqb_spec k i) as [->|Hne].
  - rewrite decide_True by done. simpl. by rewrite Hm.
  - rewrite decide_False by done. apply IH.
    intros k' a' Hin. apply Hl. by right.
Qed.

(** Looking a message up by id in the snapshot reads the object filed
    under that key. *)
Lemma Snapshot_find st i :
  wf st → find_id i (Snapshot st) = normalize <$> message_at i st.
Proof. intros Hwf. apply find_id_entries, wf_ids, Hwf. Qed.

Lemma ids_entries (h : list Message.t) (l : JSMap.t nat) :
  (∀ k a, (k, a) ∈ l → ∃ m, h !! a = Some m ∧ Message.id m = k) →
  Message.id <$> (normalize <$> omap (fun a => h !! a) l.*2) = l.*1.
Proof.
  induction l as [|[k a] l IH]; intros Hl; [done|].
  destruct (Hl k a) as (m & Hm & Hid); [left|].
  csimpl. rewrite Hm. csimpl. rewrite normalize_id, Hid. f_equal.
  apply IH. intros k' a' Hin. apply Hl. by right.
Qed.

(** The snapshot lists one message per key, in the order of the keys. *)
Lemma Snapshot_ids st :
  wf st → Message.id <$> Snapshot st = JSMap.keys (messageMap st).
Proof. intros Hwf. apply ids_entries, wf_ids, Hwf. Qed.

(** ** Streamed deltas *)

Lemma message_at_append st i a m s :
  JSMap.get i (messageMap st) = Some a → heap st !! a = Some m →
  message_at i (setMessages (append_content a s st)) =
  Some (Message.mk (Message.id m) (Message.role m) (Message.content m +:+ s)).
Proof.
  intros Hget Hm. unfold message_at. simpl. rewrite Hget. simpl.
  by rewrite list_lookup_alter_eq, Hm.
Qed.

Lemma message_at_filed st x c :
  message_at (Message.id x) (setMessages (filed x c st)) = Some x.
Proof.
  unfold message_at. simpl. rewrite get_set_eq. simpl.
  by apply list_lookup_middle.
Qed.

Lemma deltas_append evs : ∀ st i m,
  i ≠ EmptyString → Forall (delta_for i) evs →
  message_at i st = Some m →
  message_at i (handleAll evs st) =
  Some (Message.mk (Message.id m) (Message.role m)
          (Message.content m +:+ concat_fragments (fragment <$> evs))).
Proof.
  induction evs as [|[env message] evs IH]; intros st i m Hi Hall Hm.
  - simpl. rewrite append_empty_r. by destruct m.
  - apply Forall_cons in Hall as [[Hty Hid] Hall]. simpl in Hty, Hid.
    rewrite handleAll_cons. unfold message_at in Hm.
    destruct (JSMap.get i (messageMap st)) as [a|] eqn:Hget; [|done].
    simpl in Hm.
    rewrite (handle_text_delta_present env message st i a) by done.
    erewrite IH; [|done|done|by apply message_at_append].
    simpl. by rewrite append_assoc.
Qed.

(** The first delta for an id that the map does not hold creates the
    message; the later ones append to it. *)
Lemma deltas_create env message evs st i :
  i ≠ EmptyString → Forall (delta_for i) ((env, message) :: evs) →
  JSMap.get i (messageMap st) = None →
  message_at i (handleAll ((env, message) :: evs) st) =
  Some (Message.mk i (Some "assistant")
          (concat_fragments (fragment <$> (env, message) :: evs))).
Proof.
  intros Hi [[Hty Hid] Hall]%Forall_cons Hget. simpl in Hty, Hid.
  rewrite handleAll_cons.
  rewrite (handle_text_delta_absent env message st i) by done.
  rewrite (deltas_append evs _ i (newMessage i message)); [done|done|done|].
  apply (message_at_filed st (newMessage i message)).
Qed.

(** Distinct keys lead to distinct objects. *)
Lemma distinct_refs st i j a b :
  wf st → i ≠ j →
  JSMap.get i (messageMap st) = Some a → JSMap.get j (messageMap st) = Some b →
  a ≠ b.
Proof.
  intros Hwf Hij Ha%get_Some_elem Hb%get_Some_elem ->.
  destruct (wf_ids st Hwf i b Ha) as (m & Hm & Hi).
  destruct (wf_ids st Hwf j b Hb) as (m' & Hm' & Hj).
  congruence.
Qed.

Lemma message_at_None st i :
  wf st → message_at i st = None → JSMap.get i (messageMap st) = None.
Proof.
  intros Hwf. unfold message_at.
  destruct (JSMap.get i (messageMap st)) as [a|] eqn:Hget; [|done]. simpl.
  destruct (wf_ids st Hwf i a) as (m & -> & _); [by apply get_Some_elem|done].
Qed.

(** A delta for another id, or without id, leaves the message alone. *)
Lemma delta_other env message st i :
  wf st →
  WSMessage.type message = Some "text_delta" →
  WSMessage.id message ≠ Some i →
  message_at i (handleWSMessage env message st) = message_at i st.
Proof.
  intros Hwf Hty Hid.
  destruct (handle_effect env message st)
    as [Hobs|a Hty' Hid' Hcur|j a Hty' Hid' Hj Hget|j Hty' Hid' Hj Hget
        |Hty' Hact Hg|Hty' Hact]; try congruence.
  - assert (Hij : i ≠ j) by congruence.
    unfold message_at. simpl.
    destruct (JSMap.get i (messageMap st)) as [b|] eqn:Hb; [|done]. simpl.
    apply list_lookup_alter_ne.
    intros ->. by apply (distinct_refs st i j b b).
  - assert (Hij : j ≠ i) by congruence.
    unfold message_at. simpl. rewrite get_set_ne by done.
    destruct (JSMap.get i (messageMap st)) as [b|] eqn:Hb; [|done]. simpl.
    destruct (wf_ids st Hwf i b) as (m & Hm & _); [by apply get_Some_elem|].
    rewrite Hm. by apply lookup_app_l_Some.
Qed.

(** In a stream of deltas for several ids, a message that exists takes
    up the fragments sent for its id, in arrival order. *)
Lemma deltas_interleaved_append evs i : ∀ st m,
  wf st → i ≠ EmptyString →
  Forall (fun ev => WSMessage.type ev.2 = Some "text_delta") evs →
  message_at i st = Some m →
  message_at i (handleAll evs st) =
  Some (Message.mk (Message.id m) (Message.role m)
          (Message.content m +:+
           concat_fragments
             (fragment <$> filter (fun ev => WSMessage.id ev.2 = Some i) evs))).
Proof.
  induction evs as [|[env message] evs IH]; intros st m Hwf Hi Hall Hm.
  - simpl. rewrite append_empty_r. by destruct m.
  - apply Forall_cons in Hall as [Hty Hall]. simpl in Hty.
    rewrite handleAll_cons.
    pose proof (wf_handleWSMessage env message st Hwf) as Hwf'.
    destruct (decide (WSMessage.id message = Some i)) as [Hid|Hid].
    + rewrite filter_cons_True by done.
      unfold message_at in Hm.
      destruct (JSMap.get i (messageMap st)) as [a|] eqn:Hget; [|done].
      simpl in Hm.
      erewrite IH; [|done|done|done|].
      2:{ rewrite (handle_text_delta_present env message st i a) by done.
          by apply message_at_append. }
      simpl. by rewrite append_assoc.
    + rewrite filter_cons_False by done.
      apply IH; [done..|]. by rewrite delta_other.
Qed.

(** The same for an id the map does not hold: the first delta that
    carries the id creates the message. *)
Lemma deltas_interleaved evs i : ∀ st,
  wf st → i ≠ EmptyString →
  Forall (fun ev => WSMessage.type ev.2 = Some "text_delta") evs →
  JSMap.get i (messageMap st) = None →
  message_at i (handleAll evs st) =
  match filter (fun ev => WSMessage.id ev.2 = Some i) evs with
  | [] => None
  | own =>
      Some (Message.mk i (Some "assistant")
              (concat_fragments (fragment <$> own)))
  end.
Proof.
  induction evs as [|[env message] evs IH]; intros st Hwf Hi Hall Hget.
  - unfold message_at. simpl. by rewrite Hget.
  - apply Forall_cons in Hall as [Hty Hall]. simpl in Hty.
    rewrite handleAll_cons.
    pose proof (wf_handleWSMessage env message st Hwf) as Hwf'.
    destruct (decide (WSMessage.id message = Some i)) as [Hid|Hid].
    + rewrite filter_cons_True by done.
      rewrite (deltas_interleaved_append evs i _ (newMessage i message));
        [done..|].
      rewrite (handle_text_delta_absent env message st i) by done.
      apply (message_at_filed st (newMessage i message)).
    + rewrite filter_cons_False by done.
      apply IH; [done..|]. apply message_at_None; [done|].
      rewrite delta_other by done. unfold message_at. by rewrite Hget.
Qed.

(** C1.  For every non-empty sequence of text_delta messages that share
    an id (a non-empty string the map does not hold yet), handled in
    arrival order, the snapshot holds under that id an assistant message
    whose content is the concatenation of the fragments in arrival order:
    the first fragment creates the message, each later one is appended. *)
Theorem text_delta_concatenation st evs i :
  wf st → i ≠ EmptyString → evs ≠ [] →
  Forall (delta_for i) evs →
  JSMap.get i (messageMap st) = None →
  find_id i (Snapshot (handleAll evs st)) =
  Some (Message.mk i (Some "assistant")
          (concat_fragments (fragment <$> evs))).
Proof.
  intros Hwf Hi Hne Hall Hget.
  rewrite Snapshot_find by by apply wf_handleAll.
  destruct evs as [|[env message] evs]; [done|].
  by rewrite deltas_create.
Qed.

(** The theorem on the three deltas of [sample_reply]. *)
Lemma text_delta_concatenation_witness :
  find_id "resp_1" (Snapshot (handleAll sample_reply initial)) =
  Some (Message.mk "resp_1" (Some "assistant") "Hello").
Proof.
  apply (text_delta_concatenation initial sample_reply "resp_1").
  - apply wf_initial.
  - discriminate.
  - discriminate.
  - repeat constructor.
  - reflexivity.
Defined.

(** ** Transcriptions *)

(** C3 (as stated, refuted).  A transcription is not final and is not
    matched by id: after speech_started, the transcription of item_1 sets
    the content of the user message, and a later transcription that
    carries another id, item_2, overwrites the content of that same
    message. *)
Lemma transcription_not_final :
  let env := mkEnv 0 "0.5" in
  let st1 :=
    handleAll
      [(env, control_message "speech_started" None);
       (env, transcription_message "item_1" "what is the weather")]
      initial in
  let st2 :=
    handleWSMessage env (transcription_message "item_2" "never mind") st1 in
  Message.content <$> find_id "userMessage0.5" (Snapshot st1) =
    Some "what is the weather" ∧
  Message.content <$> find_id "userMessage0.5" (Snapshot st2) =
    Some "never mind" ∧
  Snapshot st2 ≠ Snapshot st1.
Proof. split_and!; [reflexivity | reflexivity | discriminate]. Qed.

(** C3 (amended).  A transcription message with a non-empty id, handled
    while a current user message exists, replaces the content of that
    message by the text of the event (the empty string when the text is
    missing) whatever the old content and whatever the id of the event;
    id and role of the message, every other object, the map and the
    current user message stay as they are, and the snapshot shows the new
    content. *)
Theorem transcription_replaces_current st env message a m :
  wf st →
  WSMessage.type message = Some "transcription" →
  truthy (WSMessage.id message) = true →
  currentUserMessage st = Some a → heap st !! a = Some m →
  let st' := handleWSMessage env message st in
  let m' := Message.mk (Message.id m) (Message.role m)
              (or_empty (WSMessage.text message)) in
  heap st' !! a = Some m' ∧
  (∀ b, b ≠ a → heap st' !! b = heap st !! b) ∧
  messageMap st' = messageMap st ∧
  currentUserMessage st' = Some a ∧
  chatState st' = Snapshot st' ∧
  (JSMap.get (Message.id m) (messageMap st) = Some a →
   find_id (Message.id m) (Snapshot st') = Some (normalize m')).
Proof.
  intros Hwf Hty Hid Hcur Hm st' m'. subst st'.
  rewrite (handle_transcription env message st a) by done.
  split_and!; try done.
  - simpl. by rewrite list_lookup_alter_eq, Hm.
  - intros b Hb. simpl. by rewrite list_lookup_alter_ne.
  - intros Hget.
    rewrite Snapshot_find by by apply wf_setMessages, wf_alter.
    unfold message_at. simpl. rewrite Hget. simpl.
    by rewrite list_lookup_alter_eq, Hm.
Qed.

Lemma wf_listening : wf listening.
Proof.
  split; simpl.
  - apply NoDup_singleton.
  - apply NoDup_singleton.
  - intros k a [= -> ->]%list_elem_of_singleton. by eexists.
  - intros a [= <-]. simpl. lia.
Qed.

(** The theorem on the store [listening]: the placeholder is replaced. *)
Lemma transcription_replaces_current_witness :
  find_id "userMessage0.5"
    (Snapshot
       (handleWSMessage (mkEnv 0 "0.7")
          (transcription_message "item_1" "what is the weather") listening)) =
  Some (Message.mk "userMessage0.5" (Some "user") "what is the weather").
Proof.
  refine (proj2 (proj2 (proj2 (proj2 (proj2
    (transcription_replaces_current listening (mkEnv 0 "0.7")
       (transcription_message "item_1" "what is the weather") 0
       (Message.mk "userMessage0.5" (Some "user") "...")
       wf_listening _ _ _ _))))) _); reflexivity.
Defined.

(** ** Control messages *)

Lemma get_filter {V} (m : JSMap.t V) (f : string * V → bool) i :
  NoDup m.*1 →
  JSMap.get i (List.filter f m) =
  JSMap.get i m ≫= fun v => if f (i, v) then Some v else None.
Proof.
  induction m as [|[k v] m IH]; [done|].
  intros [Hk Hnd]%NoDup_cons. simpl.
  destruct (decide (k = i)) as [->|Hne].
  - destruct (f (i, v)) eqn:Hf; simpl.
    + by rewrite decide_True, Hf.
    + rewrite Hf. apply get_None.
      intros Hin. apply Hk.
      eapply elem_of_sublist; [done|]. apply fmap_sublist, filter_sublist.
  - destruct (f (k, v)); simpl; rewrite ?decide_False by done; auto.
Qed.

Lemma connecting_normalize m : connecting (normalize m) = connecting m.
Proof.
  unfold normalize, connecting.
  destruct (strict_eq (Message.role m) "user") eqn:Hu,
           (strict_eq (Message.role m) "status") eqn:Hs; simpl;
    by rewrite ?Hs.
Qed.

Lemma isConnecting_connecting st k a m :
  heap st !! a = Some m → isConnecting st (k, a) = connecting m.
Proof. unfold isConnecting. simpl. by intros ->. Qed.

(** The store after the map has been purged of connecting messages. *)
Lemma purged_lookup st x i :
  wf st →
  let st2 := filed x (currentUserMessage st) st in
  let st' :=
    setMessages
      (with_messageMap
         (List.filter (fun kv => negb (isConnecting st2 kv)) (messageMap st2))
         st2) in
  message_at i st' =
  if decide (i = Message.id x)
  then (if connecting x then None else Some x)
  else match message_at i st with
       | Some m => if connecting m then None else Some m
       | None => None
       end.
Proof.
  intros Hwf st2 st'. unfold message_at. simpl.
  assert (Hwf2 : wf st2) by (apply wf_file; auto).
  rewrite get_filter by apply Hwf2. simpl.
  case_decide as Hi.
  - subst i. rewrite get_set_eq. simpl.
    rewrite (isConnecting_connecting st2 _ _ x) by by apply list_lookup_middle.
    destruct (connecting x); simpl; [done|]. by apply list_lookup_middle.
  - rewrite get_set_ne by done.
    destruct (JSMap.get i (messageMap st)) as [a|] eqn:Hget; [|done]. simpl.
    destruct (wf_ids st Hwf i a) as (m & Hm & _); [by apply get_Some_elem|].
    rewrite Hm.
    assert (Hm2 : heap st2 !! a = Some m) by by apply lookup_app_l_Some.
    rewrite (isConnecting_connecting st2 _ _ m) by done.
    destruct (connecting m); simpl; [done|]. done.
Qed.

Lemma normalize_statusMessage env :
  normalize (statusMessage env) = statusMessage env.
Proof. done. Qed.

(** C7 (as stated, refuted).  A connected control message that carries
    no greeting changes nothing: no greeting message is inserted and the
    connecting status message stays. *)
Lemma connected_without_greeting_inert :
  Snapshot
    (handleWSMessage (mkEnv 2 "0.5") (control_message "connected" None)
       connecting_state) =
  [Message.mk "status-1" (Some "status") "Connecting...";
   Message.mk "resp_1" (Some "assistant") "Hello"].
Proof. reflexivity. Qed.

Lemma connected_lookup env message st :
  WSMessage.type message = Some "control" →
  WSMessage.action message = Some "connected" →
  truthy (WSMessage.greeting message) = true →
  wf st →
  find_id (statusMessageId env) (Snapshot (handleWSMessage env message st)) =
    Some (statusMessage env) ∧
  ∀ i, i ≠ statusMessageId env →
       find_id i (Snapshot (handleWSMessage env message st)) =
       match find_id i (Snapshot st) with
       | Some m => if connecting m then None else Some m
       | None => None
       end.
Proof.
  intros Hty Hact Hg Hwf.
  pose proof (wf_handleWSMessage env message st Hwf) as Hwf'.
  split; [|intros i Hi]; rewrite (Snapshot_find _ _ Hwf');
    rewrite handle_connected by done; cbv zeta;
    rewrite purged_lookup by done.
  - rewrite decide_True by done. reflexivity.
  - rewrite decide_False, Snapshot_find by done.
    destruct (message_at i st) as [m|]; simpl; [|done].
    rewrite connecting_normalize. by destruct (connecting m).
Qed.

(** The sample states are states of a run. *)
Lemma connecting_state_reached :
  handleWSMessage (mkEnv 1 "0.5") (text_delta_message "resp_1" (Some "Hello"))
    (initAudioPlayer (handleConnect_try (mkEnv 1 "0.5") initial)) =
  connecting_state.
Proof. reflexivity. Qed.

Lemma listening_reached :
  handleWSMessage (mkEnv 0 "0.5") (control_message "speech_started" None)
    (initAudioPlayer initial) = listening.
Proof. reflexivity. Qed.

Lemma wf_connecting_state : wf connecting_state.
Proof.
  split; simpl.
  - by apply (bool_decide_unpack _).
  - by apply (bool_decide_unpack _).
  - intros k a Hin. repeat (apply elem_of_cons in Hin as [[= -> ->]|Hin]);
      [by eexists..|]. by apply elem_of_nil in Hin.
  - done.
Qed.

(** C7 (amended).  Handling a connected control message that carries a
    non-empty greeting files exactly one greeting message, under the id
    status-<time>; of the messages under any other id it removes exactly
    those whose role is 'status' and whose content contains 'Connecting',
    and leaves every other one as it was. *)
Theorem connected_cleanup st env message :
  wf st →
  WSMessage.type message = Some "control" →
  WSMessage.action message = Some "connected" →
  truthy (WSMessage.greeting message) = true →
  let st' := handleWSMessage env message st in
  find_id (statusMessageId env) (Snapshot st') =
    Some (Message.mk (statusMessageId env) (Some "assistant") greetingText) ∧
  (∀ i m, i ≠ statusMessageId env → find_id i (Snapshot st) = Some m →
     find_id i (Snapshot st') =
     if strict_eq (Message.role m) "status" &&
        includes (Message.content m) "Connecting"
     then None else Some m) ∧
  (∀ i, i ≠ statusMessageId env → find_id i (Snapshot st) = None →
     find_id i (Snapshot st') = None) ∧
  chatState st' = Snapshot st'.
Proof.
  intros Hwf Hty Hact Hg st'. subst st'.
  destruct (connected_lookup env message st Hty Hact Hg Hwf) as [Hk Hother].
  split_and!.
  - done.
  - intros i m Hi Hm. by rewrite Hother, Hm.
  - intros i Hi Hm. by rewrite Hother, Hm.
  - by rewrite handle_connected.
Qed.

(** The theorem on [connecting_state]: the greeting is filed, the
    connecting message is removed, the reply stays. *)
Lemma connected_cleanup_witness :
  let st' :=
    handleWSMessage (mkEnv 2 "0.5")
      (control_message "connected" (Some "hi")) connecting_state in
  find_id "status-2" (Snapshot st') =
    Some (Message.mk "status-2" (Some "assistant") greetingText) ∧
  find_id "status-1" (Snapshot st') = None ∧
  find_id "resp_1" (Snapshot st') =
    Some (Message.mk "resp_1" (Some "assistant") "Hello").
Proof.
  destruct (connected_cleanup connecting_state (mkEnv 2 "0.5")
              (control_message "connected" (Some "hi")) wf_connecting_state
              eq_refl eq_refl eq_refl) as (Hk & Hsome & Hnone & _).
  split_and!.
  - exact Hk.
  - exact (Hsome "status-1"
             (Message.mk "status-1" (Some "status") "Connecting...")
             ltac:(discriminate) eq_refl).
  - exact (Hsome "resp_1" (Message.mk "resp_1" (Some "assistant") "Hello")
             ltac:(discriminate) eq_refl).
Defined.

(** C10.  When a control message with action 'connected' is handled, a
    greeting message is filed only if the greeting property is a
    non-empty string; its content is then the fixed sentence, the same
    state results whatever the greeting says, and a message without a
    greeting (or with an empty one) leaves the state as it was. *)
Theorem connected_greeting_fixed st env message :
  wf st →
  WSMessage.type message = Some "control" →
  WSMessage.action message = Some "connected" →
  let st' := handleWSMessage env message st in
  (truthy (WSMessage.greeting message) = true →
   find_id (statusMessageId env) (Snapshot st') =
     Some (Message.mk (statusMessageId env) (Some "assistant")
             "You are now connected to the real-time processing server") ∧
   ∀ message',
     WSMessage.type message' = Some "control" →
     WSMessage.action message' = Some "connected" →
     truthy (WSMessage.greeting message') = true →
     handleWSMessage env message' st = st') ∧
  (truthy (WSMessage.greeting message) = false → st' = st).
Proof.
  intros Hwf Hty Hact st'. subst st'. split.
  - intros Hg. split.
    + by apply connected_lookup.
    + intros message' Hty' Hact' Hg'. by rewrite !handle_connected.
  - intros Hg. unfold handleWSMessage, case_control.
    by rewrite Hty, Hact, Hg.
Qed.

(** The theorem with the greeting Welcome! and with an empty greeting. *)
Lemma connected_greeting_fixed_witness :
  find_id "status-7"
    (Snapshot
       (handleWSMessage (mkEnv 7 "0.5")
          (control_message "connected" (Some "Welcome!")) initial)) =
    Some (Message.mk "status-7" (Some "assistant")
            "You are now connected to the real-time processing server") ∧
  handleWSMessage (mkEnv 7 "0.5") (control_message "connected" (Some ""))
    connecting_state = connecting_state.
Proof.
  split.
  - exact (proj1 (proj1
      (connected_greeting_fixed initial (mkEnv 7 "0.5")
         (control_message "connected" (Some "Welcome!")) wf_initial
         eq_refl eq_refl) eq_refl)).
  - exact (proj2
      (connected_greeting_fixed connecting_state (mkEnv 7 "0.5")
         (control_message "connected" (Some "")) wf_connecting_state
         eq_refl eq_refl) eq_refl).
Defined.

(** C6.  Handling a speech_started control message clears the playback
    buffer of the player and files a new user message with content "..."
    that becomes the current user message; the state that results, in
    which nothing is buffered, is the one every later message is handled
    in. *)
Theorem speech_started_placeholder_and_flush st env message :
  wf st →
  WSMessage.type message = Some "control" →
  WSMessage.action message = Some "speech_started" →
  let st' := handleWSMessage env message st in
  let a := length (heap st) in
  heap st !! a = None ∧
  heap st' !! a = Some (Message.mk (contrivedId env) (Some "user") "...") ∧
  currentUserMessage st' = Some a ∧
  JSMap.get (contrivedId env) (messageMap st') = Some a ∧
  find_id (contrivedId env) (Snapshot st') =
    Some (Message.mk (contrivedId env) (Some "user") "...") ∧
  audioPlayerRef st' = Player.clear <$> audioPlayerRef st ∧
  (∀ p, audioPlayerRef st' = Some p → Player.buffered p = []) ∧
  chatState st' = Snapshot st' ∧
  (∀ evs, handleAll ((env, message) :: evs) st = handleAll evs st').
Proof.
  intros Hwf Hty Hact st' a.
  pose proof (wf_handleWSMessage env message st Hwf) as Hwf'.
  assert (Hst' : st' = setMessages
            (filed (placeholder env) (Some (length (heap st)))
               (with_audioPlayerRef (Player.clear <$> audioPlayerRef st) st)))
    by by apply handle_speech_started.
  split_and!.
  - by apply lookup_ge_None_2.
  - rewrite Hst'. simpl. by apply list_lookup_middle.
  - by rewrite Hst'.
  - rewrite Hst'. simpl. apply get_set_eq.
  - rewrite (Snapshot_find _ _ Hwf'). fold st'. rewrite Hst'.
    by rewrite (message_at_filed _ (placeholder env)).
  - by rewrite Hst'.
  - rewrite Hst'. simpl. by destruct (audioPlayerRef st); intros p [= <-].
  - by rewrite Hst'.
  - done.
Qed.

(** The theorem on a store whose player holds two chunks. *)
Lemma speech_started_placeholder_and_flush_witness :
  let st := with_audioPlayerRef (Some (Player.mk [[1; 2]%Z; [3]%Z])) listening in
  let st' :=
    handleWSMessage (mkEnv 3 "0.25") (control_message "speech_started" None)
      st in
  find_id "userMessage0.25" (Snapshot st') =
    Some (Message.mk "userMessage0.25" (Some "user") "...") ∧
  audioPlayerRef st' = Some (Player.mk []).
Proof.
  intros st st'.
  destruct (speech_started_placeholder_and_flush st (mkEnv 3 "0.25")
              (control_message "speech_started" None)
              (wf_with_audioPlayerRef _ _ wf_listening) eq_refl eq_refl)
    as (_ & _ & _ & _ & Hfind & Hplayer & _).
  split; [exact Hfind | exact Hplayer].
Defined.

(** ** Roles *)

(** C8.  The snapshot presents a stored message whose role is neither
    'user' nor 'status' (another string, or no role at all) with role
    'assistant' and with the same id and content; a message tagged 'user'
    or 'status' is presented unchanged. *)
Theorem role_normalization st i a m :
  wf st →
  JSMap.get i (messageMap st) = Some a → heap st !! a = Some m →
  ∃ m', find_id i (Snapshot st) = Some m' ∧
        Message.id m' = Message.id m ∧
        Message.content m' = Message.content m ∧
        (Message.role m = Some "user" ∨ Message.role m = Some "status" →
         m' = m) ∧
        (Message.role m ≠ Some "user" → Message.role m ≠ Some "status" →
         Message.role m' = Some "assistant").
Proof.
  intros Hwf Hget Hm. exists (normalize m).
  rewrite Snapshot_find by done. unfold message_at. rewrite Hget. simpl.
  rewrite Hm. split_and!; [done | apply normalize_id | apply normalize_content | |].
  - unfold normalize. intros [Hr|Hr]; rewrite Hr; reflexivity.
  - intros Hu%strict_eq_false Hs%strict_eq_false. unfold normalize.
    by rewrite Hu, Hs.
Qed.

Lemma wf_mistagged : wf mistagged.
Proof.
  split; simpl.
  - by apply (bool_decide_unpack _).
  - by apply (bool_decide_unpack _).
  - intros k a Hin. repeat (apply elem_of_cons in Hin as [[= -> ->]|Hin]);
      [by eexists..|]. by apply elem_of_nil in Hin.
  - done.
Qed.

(** The theorem on the three messages of [mistagged]. *)
Lemma role_normalization_witness :
  (∃ m', find_id "m1" (Snapshot mistagged) = Some m' ∧
         Message.role m' = Some "assistant") ∧
  (∃ m', find_id "m2" (Snapshot mistagged) = Some m' ∧
         Message.role m' = Some "assistant") ∧
  (∃ m', find_id "m3" (Snapshot mistagged) = Some m' ∧
         m' = Message.mk "m3" (Some "status") "Connecting...").
Proof.
  split_and!.
  - destruct (role_normalization mistagged "m1" 0
                (Message.mk "m1" (Some "system") "be brief")
                wf_mistagged eq_refl eq_refl)
      as (m' & Hfind & _ & _ & _ & Hrole).
    exists m'. split; [exact Hfind|]. apply Hrole; discriminate.
  - destruct (role_normalization mistagged "m2" 1
                (Message.mk "m2" None "hello")
                wf_mistagged eq_refl eq_refl)
      as (m' & Hfind & _ & _ & _ & Hrole).
    exists m'. split; [exact Hfind|]. apply Hrole; discriminate.
  - destruct (role_normalization mistagged "m3" 2
                (Message.mk "m3" (Some "status") "Connecting...")
                wf_mistagged eq_refl eq_refl)
      as (m' & Hfind & _ & _ & Hkeep & _).
    exists m'. split; [exact Hfind|]. apply Hkeep. by right.
Defined.

(** ** Order of the snapshot *)
















Lemma no_status_initial : no_status initial.
Proof. intros k a m Hin. by apply elem_of_nil in Hin. Qed.











(** ** The receive loop *)


Section ReceiveLoopFacts.
Variable JSON_parse : string → Parsed.

Lemma for_await_cons env message frames ls :
  for_await JSON_parse ((env, message) :: frames) ls =
  match receive JSON_parse env message ls with
  | inl ls' => for_await JSON_parse frames ls'
  | inr e => (ls, Some e)
  end.
Proof. done. Qed.

Lemma for_await_app pre post ls :
  for_await JSON_parse (pre ++ post) ls =
  match for_await JSON_parse pre ls with
  | (ls1, None) => for_await JSON_parse post ls1
  | thrown => thrown
  end.
Proof.
  revert ls. induction pre as [|[env message] pre IH]; intros ls; [done|].
  simpl. destruct (receive JSON_parse env message ls); [apply IH | done].
Qed.






End ReceiveLoopFacts.


(** A run with a frame that is not JSON and a frame of unknown type. *)
Lemma receiveLoop_sample :
  let r :=
    receiveLoop parse_frame
      (Some [sample_frame_1; malformed_frame; unknown_frame; sample_frame_2])
      (Loop.mk initial []) in
  Snapshot (Loop.page r.1) =
    [Message.mk "resp_1" (Some "assistant") "Hello"] ∧
  r.2 = None.
Proof. by vm_compute. Qed.

(** A binary frame of odd length is not inside the [try]: the loop ends
    there and the frames behind it are not handled. *)
Lemma receiveLoop_odd_binary :
  let r :=
    receiveLoop parse_frame
      (Some [sample_frame_1; (mkEnv 1 "0.5", binary [x01; x02; x03]);
             sample_frame_2])
      (Loop.mk initial []) in
  Snapshot (Loop.page r.1) = [Message.mk "resp_1" (Some "assistant") "Hel"] ∧
  r.2 = Some RangeError.
Proof. by vm_compute. Qed.

(** Every state reached from the initial one shows in [chatState] the
    snapshot of its store. *)
Lemma chatState_Snapshot evs :
  chatState (handleAll evs initial) = Snapshot (handleAll evs initial).
Proof.
  assert (H : ∀ st, chatState st = Snapshot st →
                    chatState (handleAll evs st) = Snapshot (handleAll evs st)).
  { induction evs as [|[env message] evs IH]; intros st Hst; [done|].
    rewrite handleAll_cons. apply IH.
    by destruct (handle_effect env message st). }
  by apply H.
Qed.

(** ** SpeakerOutput *)

Lemma run_app sched1 sched2 s :
  SpeakerOutput.run (sched1 ++ sched2) s =
  SpeakerOutput.run sched2 (SpeakerOutput.run sched1 s).
Proof. apply foldl_app. Qed.

Lemma run_cons e sched s :
  SpeakerOutput.run (e :: sched) s =
  SpeakerOutput.run sched (SpeakerOutput.step e s).
Proof. done. Qed.

(** What [ClearPlayback] does: the provider is emptied, the queue of
    chunks that wait for the background task is left as it is. *)
Lemma ClearPlayback_provider_only s :
  SpeakerOutput._waveProvider (SpeakerOutput.ClearPlayback s) = [] ∧
  SpeakerOutput._audioQueue (SpeakerOutput.ClearPlayback s) =
  SpeakerOutput._audioQueue s.
Proof. done. Qed.

Lemma run_enqueue chunks s :
  SpeakerOutput.run (SpeakerOutput.enqueue <$> chunks) s =
  SpeakerOutput.mk (SpeakerOutput._audioQueue s ++ chunks)
    (SpeakerOutput._waveProvider s) (SpeakerOutput.device s)
    (SpeakerOutput._cts s).
Proof.
  revert s. induction chunks as [|c chunks IH]; intros s.
  - simpl. rewrite app_nil_r. by destruct s.
  - rewrite fmap_cons, run_cons, IH. simpl. by rewrite <- app_assoc.
Qed.

Lemma run_process chunks : ∀ provider played,
  SpeakerOutput.run (replicate (length chunks) SpeakerOutput.process)
    (SpeakerOutput.mk chunks provider played false) =
  SpeakerOutput.mk [] (provider ++ concat chunks) played false.
Proof.
  induction chunks as [|c chunks IH]; intros provider played.
  - simpl. by rewrite app_nil_r.
  - change (replicate (length (c :: chunks)) SpeakerOutput.process)
      with (SpeakerOutput.process ::
            replicate (length chunks) SpeakerOutput.process).
    rewrite run_cons. simpl SpeakerOutput.step.
    unfold SpeakerOutput.ProcessAudioQueue. simpl. rewrite IH.
    by rewrite <- app_assoc.
Qed.

(** Chunks enqueued after a clear that found the queue empty are all
    handed to the device, in order. *)
Lemma enqueued_after_clear_played chunks s :
  SpeakerOutput._cts s = false → SpeakerOutput._audioQueue s = [] →
  SpeakerOutput.device
    (SpeakerOutput.run
       ([SpeakerOutput.clear] ++ (SpeakerOutput.enqueue <$> chunks) ++
        replicate (length chunks) SpeakerOutput.process ++
        [SpeakerOutput.read (length (concat chunks))]) s) =
  SpeakerOutput.device s ++ concat chunks.
Proof.
  intros Hc Hq. rewrite !run_app, run_enqueue. simpl. rewrite Hc, Hq. simpl.
  rewrite run_process. simpl. by rewrite firstn_all.
Qed.

(** C2 (the code at the failing schedule).  A chunk enqueued before
    [ClearPlayback] and not yet taken by the background task is still in
    the queue after the call; the next iteration of the task hands it to
    the provider and the device plays it. *)
Theorem ClearPlayback_keeps_queued_audio chunk :
  let s1 :=
    SpeakerOutput.run [SpeakerOutput.enqueue chunk; SpeakerOutput.clear]
      SpeakerOutput.new in
  let s2 :=
    SpeakerOutput.run
      [SpeakerOutput.process; SpeakerOutput.read (length chunk)] s1 in
  SpeakerOutput._audioQueue s1 = [chunk] ∧
  SpeakerOutput.device s1 = [] ∧
  SpeakerOutput.device s2 = chunk.
Proof.
  split_and!; [done | done |]. simpl. by rewrite firstn_all.
Qed.

(** * The rest of the page: properties *)

(** ** Sessions *)

Lemma shown_handleWSMessage env message st :
  chatState st = Snapshot st →
  chatState (handleWSMessage env message st) =
  Snapshot (handleWSMessage env message st).
Proof. intros Hst. by destruct (handle_effect env message st). Qed.

Lemma handleConnect_try_filed env st :
  handleConnect_try env st =
  setMessages
    (filed (Message.mk (statusMessageId env) (Some "status") "Connecting...")
       (currentUserMessage st) (with_messageMap JSMap.empty st)).
Proof. done. Qed.

Lemma wf_forget st : wf st → wf (with_messageMap JSMap.empty st).
Proof.
  intros [? ? ? ?]. split; simpl; auto using NoDup_nil_2.
  intros k a Hin. by apply elem_of_nil in Hin.
Qed.

Lemma wf_handleConnect_try env st : wf st → wf (handleConnect_try env st).
Proof.
  intros Hwf. rewrite handleConnect_try_filed.
  apply wf_setMessages, wf_file; [by apply wf_forget | by left].
Qed.

Lemma wf_initAudioPlayer st : wf st → wf (initAudioPlayer st).
Proof.
  intros Hwf. unfold initAudioPlayer.
  destruct (audioPlayerRef st); [done | by apply wf_with_audioPlayerRef].
Qed.

Lemma page_ok_disconnect dev p :
  page_ok p → page_ok (disconnectWebSocket dev p).
Proof.
  intros [Hwf Hshown Hing Hed Hrec Hmic Hcap].
  unfold disconnectWebSocket, handleToggleMicrophone.
  destruct p as [st inp sid mic ing ed ws rec]. simpl in *.
  destruct mic; simpl.
  - destruct (Hmic eq_refl) as [r ->]. simpl.
    destruct ws; split; simpl; auto using wf_with_audioPlayerRef;
      try done; try (by split; [done | intros [? ?]]);
      try (by intros [? ?]).
  - destruct rec, ws; split; simpl; auto using wf_with_audioPlayerRef;
      try done; try (by split; [done | intros [? ?]]);
      try (by intros [? ?]).
Qed.

Lemma handleSend_accepted env p c :
  Page.webSocketClient p = Some c →
  trim (Page.input p) ≠ EmptyString → Page.isConnected p = true →
  handleSend env p =
  Page.with_input EmptyString
    (Page.with_webSocketClient
       (Some (WebSocketClient.send
                (text (JSON_stringify_user_message (Page.input p))) c))
       (Page.with_refs
          (setMessages
             (filed (Message.mk (messageId env) (Some "user") (Page.input p))
                (currentUserMessage (Page.refs p)) (Page.refs p))) p)).
Proof.
  intros Hws Hin Hc. unfold handleSend.
  by rewrite Hws, Hc, bool_decide_eq_false_2.
Qed.

Lemma handleSend_refused env p :
  Page.webSocketClient p = None ∨ trim (Page.input p) = EmptyString ∨
  Page.isConnected p = false →
  handleSend env p = p.
Proof.
  unfold handleSend. intros [->|[Hin| ->]]; [done | |].
  - rewrite bool_decide_eq_true_2 by done. by destruct (Page.webSocketClient p).
  - rewrite andb_false_r. by destruct (Page.webSocketClient p).
Qed.

Lemma page_ok_act a p : page_ok p → page_ok (act a p).
Proof.
  intros Hok. pose proof Hok as [Hwf Hshown Hing Hed Hrec Hmic Hcap].
  destruct a as [env dev|dev|env|nanoid|value|buffer|env message|data]; simpl.
  - rewrite Hing. unfold handleConnectToggle, handleConnect.
    destruct (Page.isConnected p) eqn:Hc; [by apply page_ok_disconnect|].
    split; simpl.
    + by apply wf_initAudioPlayer, wf_handleConnect_try.
    + unfold initAudioPlayer. by destruct (audioPlayerRef _).
    + done.
    + done.
    + done.
    + intros Hm. destruct (Hmic Hm) as [r Hr].
      assert (Hs : is_Some (Page.webSocketClient p)) by (apply Hrec; eauto).
      apply Hed in Hs. congruence.
    + done.
  - destruct (Page.isConnected p) eqn:Hc; [|done].
    assert (Hs : is_Some (Page.webSocketClient p)) by by apply Hed.
    unfold handleToggleMicrophone.
    destruct (Page.microphoneActive p) eqn:Hm; simpl.
    + destruct (Hmic eq_refl) as [r Hr]. rewrite Hr.
      split; simpl; try done; try (by intros [? ?]).
    + rewrite bool_decide_eq_true_2 by done.
      destruct (getUserMedia dev); split; simpl; try done; try (by eexists).
      intros r [= <-]. destruct (Page.audioRecorderRef p) as [r0|] eqn:Hr0;
        simpl; [|done]. intros Hr. by apply (Hcap r0).
  - destruct (Page.webSocketClient p) as [c|] eqn:Hws;
      [|by rewrite handleSend_refused by auto].
    destruct (decide (trim (Page.input p) = EmptyString)) as [Hin|Hin];
      [by rewrite handleSend_refused by auto|].
    destruct (Page.isConnected p) eqn:Hc;
      [|by rewrite handleSend_refused by auto].
    rewrite (handleSend_accepted env p c) by done.
    split; simpl; try done.
    apply wf_setMessages, wf_file; auto.
  - split; simpl; try done.
    by destruct (wf_forget _ Hwf).
  - by split.
  - unfold recorderCallback.
    destruct (Page.webSocketClient p) as [c|] eqn:Hws; [|done].
    split; simpl; try done. by rewrite Hed.
  - split; simpl; try done.
    + by apply wf_handleWSMessage.
    + by apply shown_handleWSMessage.
  - destruct (audioPlayerRef (Page.refs p)) as [player|]; [|done].
    destruct (Int16Array data) as [samples|]; [|done].
    split; simpl; try done. by apply wf_with_audioPlayerRef.
Qed.

Lemma page_ok_initial : page_ok Page.initial.
Proof.
  split; simpl; try done; try (by intros [? ?]).
  apply wf_initial.
Qed.

Lemma page_ok_session actions : ∀ p, page_ok p → page_ok (session actions p).
Proof.
  induction actions as [|a actions IH]; intros p Hok; [done|].
  apply IH. by apply page_ok_act.
Qed.

(** X1.  Whatever the user and the server do, in any order, the page
    stays coherent: the map holds one well-formed message per id, the
    list on display is the snapshot of the map, [isConnecting] is off
    again, the page is connected exactly when it holds a socket, a
    recorder exists only beside a socket, and the microphone is shown
    active only while a recorder exists. *)
Theorem session_keeps_page_coherent actions :
  let p := session actions Page.initial in
  wf (Page.refs p) ∧
  NoDup (Message.id <$> chatState (Page.refs p)) ∧
  chatState (Page.refs p) = Snapshot (Page.refs p) ∧
  Page.isConnecting p = false ∧
  (Page.isConnected p = true ↔ is_Some (Page.webSocketClient p)) ∧
  (is_Some (Page.audioRecorderRef p) → is_Some (Page.webSocketClient p)) ∧
  (Page.microphoneActive p = true → is_Some (Page.audioRecorderRef p)).
Proof.
  intros p.
  destruct (page_ok_session actions Page.initial page_ok_initial)
    as [Hwf Hshown Hing Hed Hrec Hmic Hcap].
  split_and!; try done.
  fold p in Hshown. rewrite Hshown, Snapshot_ids by done. apply Hwf.
Qed.

(** X2.  From whatever page a session has reached, [disconnectWebSocket]
    leaves no socket, no recorder, an inactive microphone and an empty
    playback buffer, and it keeps the messages, the input and the session
    id; a second call changes nothing more. *)
Theorem disconnect_releases_everything actions dev :
  let p := session actions Page.initial in
  let q := disconnectWebSocket dev p in
  Page.isConnected q = false ∧
  Page.webSocketClient q = None ∧
  Page.audioRecorderRef q = None ∧
  Page.microphoneActive q = false ∧
  audioPlayerRef (Page.refs q) =
    Player.clear <$> audioPlayerRef (Page.refs p) ∧
  (∀ player, audioPlayerRef (Page.refs q) = Some player →
             Player.buffered player = []) ∧
  Snapshot (Page.refs q) = Snapshot (Page.refs p) ∧
  chatState (Page.refs q) = chatState (Page.refs p) ∧
  Page.input q = Page.input p ∧ Page.sessionId q = Page.sessionId p ∧
  ∀ dev', disconnectWebSocket dev' q = q.
Proof.
  intros p q.
  destruct (page_ok_session actions Page.initial page_ok_initial)
    as [Hwf Hshown Hing Hed Hrec Hmic Hcap].
  fold p in Hwf, Hshown, Hing, Hed, Hrec, Hmic, Hcap.
  subst q. unfold disconnectWebSocket, handleToggleMicrophone.
  destruct p as [st inp sid mic ing ed ws rec]. simpl in *.
  assert (Hclear : ∀ player,
            Player.clear <$> audioPlayerRef st = Some player →
            Player.buffered player = [])
    by (destruct (audioPlayerRef st); by intros ? [= <-]).
  assert (Hidem : with_audioPlayerRef
                    (Player.clear <$> (Player.clear <$> audioPlayerRef st))
                    (with_audioPlayerRef (Player.clear <$> audioPlayerRef st) st)
                  = with_audioPlayerRef (Player.clear <$> audioPlayerRef st) st)
    by (by destruct (audioPlayerRef st)).
  destruct mic; simpl.
  - destruct (Hmic eq_refl) as [r ->]. simpl.
    destruct ws; simpl; split_and!; try done;
      intros dev'; simpl; by rewrite Hidem.
  - destruct rec, ws; simpl; split_and!; try done;
      intros dev'; simpl; by rewrite Hidem.
Qed.

(** ** handleConnect and the greeting *)

Lemma Snapshot_with_audioPlayerRef pl st :
  Snapshot (with_audioPlayerRef pl st) = Snapshot st.
Proof. done. Qed.

Lemma includes_Connecting : includes "Connecting..." "Connecting" = true.
Proof. reflexivity. Qed.








(** ** Blank input *)

Lemma blank_trimStart s : trimStart s = EmptyString ↔ blank s = true.
Proof.
  induction s as [|c s IH]; simpl; [done|].
  destruct (is_js_space c); simpl; [done|]. split; discriminate.
Qed.

Lemma blank_rev_app s acc :
  blank (String.rev_app s acc) = blank s && blank acc.
Proof.
  revert acc. induction s as [|c s IH]; intros acc; simpl; [done|].
  rewrite IH. simpl. destruct (is_js_space c), (blank s); simpl; try done.
Qed.

Lemma blank_rev s : blank (String.rev s) = blank s.
Proof. unfold String.rev. rewrite blank_rev_app. simpl. by rewrite andb_true_r. Qed.

Lemma blank_trimStart_same s : blank (trimStart s) = blank s.
Proof.
  induction s as [|c s IH]; simpl; [done|].
  destruct (is_js_space c) eqn:Hc; simpl; [done|]. by rewrite Hc.
Qed.

Lemma rev_empty s : String.rev s = EmptyString ↔ s = EmptyString.
Proof.
  split; [|by intros ->].
  destruct s as [|c s]; [done|]. unfold String.rev. simpl.
  assert (H : ∀ s acc, acc ≠ EmptyString → String.rev_app s acc ≠ EmptyString).
  { clear. induction s as [|c s IH]; intros acc Hacc; simpl; [done|].
    by apply IH. }
  intros Hr. by apply H in Hr.
Qed.

(** [trim] leaves nothing exactly of the strings made of blanks. *)
Lemma trim_blank s : trim s = EmptyString ↔ blank s = true.
Proof.
  unfold trim, trimEnd. rewrite rev_empty, blank_trimStart, blank_rev.
  by rewrite blank_trimStart_same.
Qed.

(** ** handleSend *)

Lemma message_at_filed_ne st x c i :
  wf st → i ≠ Message.id x →
  message_at i (setMessages (filed x c st)) = message_at i st.
Proof.
  intros Hwf Hi. unfold message_at. simpl. rewrite get_set_ne by done.
  destruct (JSMap.get i (messageMap st)) as [a|] eqn:Hget; [|done]. simpl.
  destruct (wf_ids st Hwf i a) as (m & Hm & _); [by apply get_Some_elem|].
  rewrite Hm. by apply lookup_app_l_Some.
Qed.

(** X4.  [handleSend] does nothing when the page holds no socket, is not
    connected, or the input consists of blanks only.  Otherwise it files
    one user message under user-<time> whose content is the input as
    typed (not trimmed), leaves every message under another id as it was,
    hands exactly one text frame with the JSON of
    {type: user_message, text: input} to the socket, and empties the
    input. *)
Theorem handleSend_effect env p :
  wf (Page.refs p) →
  let q := handleSend env p in
  (Page.webSocketClient p = None ∨ blank (Page.input p) = true ∨
   Page.isConnected p = false → q = p) ∧
  (∀ c, Page.webSocketClient p = Some c →
        blank (Page.input p) = false → Page.isConnected p = true →
     find_id (messageId env) (Snapshot (Page.refs q)) =
       Some (Message.mk (messageId env) (Some "user") (Page.input p)) ∧
     (∀ i, i ≠ messageId env →
        find_id i (Snapshot (Page.refs q)) =
        find_id i (Snapshot (Page.refs p))) ∧
     chatState (Page.refs q) = Snapshot (Page.refs q) ∧
     Page.webSocketClient q =
       Some (WebSocketClient.mk
               (WebSocketClient.sent c ++
                [text (JSON_stringify_user_message (Page.input p))])) ∧
     Page.input q = EmptyString ∧
     Page.isConnected q = true ∧
     Page.audioRecorderRef q = Page.audioRecorderRef p ∧
     Page.microphoneActive q = Page.microphoneActive p).
Proof.
  intros Hwf q. subst q. split.
  - intros Hno. apply handleSend_refused.
    destruct Hno as [?|[Hb%trim_blank|?]]; auto.
  - intros c Hws Hb Hc.
    assert (Hin : trim (Page.input p) ≠ EmptyString).
    { intros Ht%trim_blank. congruence. }
    rewrite (handleSend_accepted env p c) by done. simpl.
    set (x := Message.mk (messageId env) (Some "user") (Page.input p)).
    assert (Hwf' : wf (setMessages
                         (filed x (currentUserMessage (Page.refs p))
                            (Page.refs p))))
      by (apply wf_setMessages, wf_file; auto).
    split_and!; try done.
    + rewrite Snapshot_find by done.
      by rewrite (message_at_filed _ x).
    + intros i Hi. rewrite !Snapshot_find by done.
      by rewrite (message_at_filed_ne _ x).
Qed.

(** The theorem on a connected page whose input has blanks around hi:
    the message keeps them. *)
Lemma handleSend_effect_witness :
  let p :=
    Page.mk (initAudioPlayer initial) " hi " "s1" false false true
      (Some WebSocketClient.new) None in
  find_id "user-7" (Snapshot (Page.refs (handleSend (mkEnv 7 "0.5") p))) =
    Some (Message.mk "user-7" (Some "user") " hi ") ∧
  handleSend (mkEnv 7 "0.5") (Page.with_input "   " p) =
    Page.with_input "   " p.
Proof.
  intros p. split.
  - exact (proj1 (proj2
      (handleSend_effect (mkEnv 7 "0.5") p (wf_initAudioPlayer _ wf_initial))
      WebSocketClient.new eq_refl eq_refl eq_refl)).
  - refine (proj1
      (handleSend_effect (mkEnv 7 "0.5") (Page.with_input "   " p)
         (wf_initAudioPlayer _ wf_initial)) _).
    right. left. reflexivity.
Defined.

(** ** Placeholders that were overtaken *)

Lemma transcription_other env message st i :
  wf st →
  WSMessage.type message = Some "transcription" →
  (∀ a b, JSMap.get i (messageMap st) = Some a →
          currentUserMessage st = Some b → a ≠ b) →
  message_at i (handleWSMessage env message st) = message_at i st ∧
  messageMap (handleWSMessage env message st) = messageMap st ∧
  currentUserMessage (handleWSMessage env message st) = currentUserMessage st.
Proof.
  intros Hwf Hty Hother.
  destruct (handle_effect env message st)
    as [Hobs|b Hty' Hid' Hcur|j a Hty' Hid' Hj Hget|j Hty' Hid' Hj Hget
        |Hty' Hact Hg|Hty' Hact]; try congruence; [done|].
  split_and!; try done.
  unfold message_at. simpl.
  destruct (JSMap.get i (messageMap st)) as [a|] eqn:Hget; [|done]. simpl.
  apply list_lookup_alter_ne. intros ->. by apply (Hother a a).
Qed.

(** X5.  Once speech_started has been handled, transcriptions reach the
    new placeholder only: whatever transcriptions follow, every message
    filed under another id, an earlier placeholder among them, is shown
    as it was before. *)
Theorem transcriptions_reach_latest_only st env message evs i :
  wf st →
  WSMessage.type message = Some "control" →
  WSMessage.action message = Some "speech_started" →
  i ≠ contrivedId env →
  Forall (fun ev => WSMessage.type ev.2 = Some "transcription") evs →
  find_id i (Snapshot (handleAll ((env, message) :: evs) st)) =
  find_id i (Snapshot st).
Proof.
  intros Hwf Hty Hact Hi Hall. rewrite handleAll_cons.
  pose proof (wf_handleWSMessage env message st Hwf) as Hwf1.
  set (st1 := handleWSMessage env message st) in *.
  assert (Hst1 : st1 = setMessages
            (filed (placeholder env) (Some (length (heap st)))
               (with_audioPlayerRef (Player.clear <$> audioPlayerRef st) st)))
    by by apply handle_speech_started.
  assert (Hat : message_at i st1 = message_at i st).
  { rewrite Hst1, (message_at_filed_ne _ (placeholder env));
      [done | by apply wf_with_audioPlayerRef | done]. }
  assert (Hother : ∀ a b, JSMap.get i (messageMap st1) = Some a →
                          currentUserMessage st1 = Some b → a ≠ b).
  { rewrite Hst1. simpl. rewrite get_set_ne by done.
    intros a b Ha%get_Some_elem [= <-].
    apply (wf_ref_lt st Hwf) in Ha. lia. }
  rewrite (Snapshot_find st) by done. rewrite <- Hat.
  clearbody st1. clear Hst1 Hat Hty Hact.
  revert st1 Hwf1 Hother.
  induction evs as [|[env' message'] evs IH]; intros st1 Hwf1 Hother.
  - by apply Snapshot_find.
  - apply Forall_cons in Hall as [Hty' Hall]. simpl in Hty'.
    rewrite handleAll_cons.
    destruct (transcription_other env' message' st1 i Hwf1 Hty' Hother)
      as (Hat & Hmap & Hcur).
    rewrite IH; [by rewrite Hat | done | by apply wf_handleWSMessage |].
    by rewrite Hmap, Hcur.
Qed.

(** The theorem for two speeches: the first placeholder stays as it is
    when the transcription arrives after the second speech has started. *)
Lemma transcriptions_reach_latest_only_witness :
  find_id "userMessage0.5"
    (Snapshot
       (handleAll
          [(mkEnv 1 "0.25", control_message "speech_started" None);
           (mkEnv 2 "0.25", transcription_message "item_1" "first words")]
          listening)) =
  Some (Message.mk "userMessage0.5" (Some "user") "...").
Proof.
  exact (transcriptions_reach_latest_only listening (mkEnv 1 "0.25")
           (control_message "speech_started" None)
           [(mkEnv 2 "0.25", transcription_message "item_1" "first words")]
           "userMessage0.5" wf_listening eq_refl eq_refl
           ltac:(discriminate) ltac:(repeat constructor)).
Defined.

(** ** handleClear *)

(** X6.  [handleClear] empties the display, and what was shown does not
    come back: a transcription that arrives afterwards is written to the
    user message that is no longer in the map and nothing is displayed,
    and a delta for a reply that began before the clear starts a message
    that holds that fragment only. *)
Theorem handleClear_forgets nanoid p env :
  let q := handleClear nanoid p in
  Snapshot (Page.refs q) = [] ∧
  chatState (Page.refs q) = [] ∧
  currentUserMessage (Page.refs q) = currentUserMessage (Page.refs p) ∧
  Page.sessionId q = nanoid ∧
  Page.isConnected q = Page.isConnected p ∧
  Page.webSocketClient q = Page.webSocketClient p ∧
  (∀ i t, Snapshot
            (handleWSMessage env (transcription_message i t) (Page.refs q))
          = []) ∧
  (∀ i d, i ≠ EmptyString →
     Snapshot (handleWSMessage env (text_delta_message i d) (Page.refs q)) =
     [Message.mk i (Some "assistant") (or_empty d)]).
Proof.
  intros q. subst q. split_and!; try done.
  - intros i t. unfold handleWSMessage, case_transcription. simpl.
    destruct (negb (i =? "")%string); [|done].
    by destruct (currentUserMessage (Page.refs p)).
  - intros i d Hi%truthy_Some.
    rewrite (handle_text_delta_absent env _ _ i); try done.
    + unfold Snapshot. simpl. by rewrite list_lookup_middle.
    + by apply truthy_Some.
Qed.

(** ** What the page shows of the connection *)

(** X7.  On every page a session reaches, the text of the power button
    and the text in the header agree; they say Connected exactly when the
    page holds a socket and never say Connecting...; and the dispatch of
    the button does what [handleConnect] alone does. *)
Theorem connection_texts_agree actions :
  let p := session actions Page.initial in
  buttonText (Page.isConnected p) (Page.isConnecting p) =
    headerText (Page.isConnected p) (Page.isConnecting p) ∧
  (buttonText (Page.isConnected p) (Page.isConnecting p) = "Connected" ↔
   is_Some (Page.webSocketClient p)) ∧
  buttonText (Page.isConnected p) (Page.isConnecting p) ≠ "Connecting..." ∧
  ∀ env dev,
    handleConnectToggle (Page.isConnected p) (handleConnect env dev)
      (disconnectWebSocket dev) p = handleConnect env dev p.
Proof.
  intros p.
  destruct (page_ok_session actions Page.initial page_ok_initial)
    as [Hwf Hshown Hing Hed Hrec Hmic Hcap].
  fold p in Hing, Hed. rewrite Hing. unfold buttonText, headerText.
  split_and!.
  - done.
  - rewrite <- Hed. by destruct (Page.isConnected p).
  - by destruct (Page.isConnected p).
  - intros env dev. unfold handleConnectToggle, handleConnect.
    by destruct (Page.isConnected p).
Qed.

(** ** The bubbles of the snapshot *)

(** X8.  Of a message of the snapshot the bubble shows the line
    Assistant exactly when the stored role is neither 'user' nor
    'status'; it takes the user style exactly for 'user', the muted
    centred style exactly for 'status', and the assistant style for every
    other stored role, a missing one included. *)
Theorem bubble_of_normalized m :
  let role := Message.role (normalize m) in
  (bubbleHeader role = true ↔
   Message.role m ≠ Some "user" ∧ Message.role m ≠ Some "status") ∧
  (bubbleStyle role = style_user ↔ Message.role m = Some "user") ∧
  (bubbleStyle role = style_muted ↔ Message.role m = Some "status") ∧
  (bubbleStyle role = style_assistant ↔
   Message.role m ≠ Some "user" ∧ Message.role m ≠ Some "status").
Proof.
  destruct m as [i r c]. unfold normalize, bubbleHeader, bubbleStyle.
  cbn [Message.role].
  destruct (decide (r = Some "user")) as [->|Hu].
  { split_and!; split; try done; by intros [? ?]. }
  destruct (decide (r = Some "status")) as [->|Hs].
  { split_and!; split; try done; by intros [? ?]. }
  rewrite (proj2 (strict_eq_false r "user") Hu),
          (proj2 (strict_eq_false r "status") Hs).
  split_and!; split; try done.
Qed.

(** ** Streams of deltas for several replies *)

(** X9.  In a stream of text_delta messages for several ids (and some
    without id), each reply is assembled from its own fragments: the
    snapshot holds under an id that was not in the map the concatenation
    of the fragments sent for that id, in arrival order, and holds
    nothing under an id for which no delta came. *)
Theorem interleaved_replies st evs i :
  wf st → i ≠ EmptyString →
  Forall (fun ev => WSMessage.type ev.2 = Some "text_delta") evs →
  JSMap.get i (messageMap st) = None →
  find_id i (Snapshot (handleAll evs st)) =
  match filter (fun ev => WSMessage.id ev.2 = Some i) evs with
  | [] => None
  | own =>
      Some (Message.mk i (Some "assistant")
              (concat_fragments (fragment <$> own)))
  end.
Proof.
  intros Hwf Hi Hall Hget.
  rewrite Snapshot_find by by apply wf_handleAll.
  rewrite deltas_interleaved by done.
  by destruct (filter _ evs).
Qed.

(** The theorem on two replies whose deltas alternate. *)
Lemma interleaved_replies_witness :
  let evs :=
    [(mkEnv 0 "0.5", text_delta_message "resp_1" (Some "Hel"));
     (mkEnv 1 "0.5", text_delta_message "resp_2" (Some "Bon"));
     (mkEnv 2 "0.5", text_delta_message "resp_1" (Some "lo"));
     (mkEnv 3 "0.5", text_delta_message "resp_2" (Some "jour"))] in
  find_id "resp_1" (Snapshot (handleAll evs initial)) =
    Some (Message.mk "resp_1" (Some "assistant") "Hello") ∧
  find_id "resp_2" (Snapshot (handleAll evs initial)) =
    Some (Message.mk "resp_2" (Some "assistant") "Bonjour").
Proof.
  intros evs. split.
  - exact (interleaved_replies initial evs "resp_1" wf_initial
             ltac:(discriminate) ltac:(repeat constructor) eq_refl).
  - exact (interleaved_replies initial evs "resp_2" wf_initial
             ltac:(discriminate) ltac:(repeat constructor) eq_refl).
Defined.

(** ** Binary frames *)

Lemma Int16Array_None data :
  Int16Array data = None ↔ Nat.even (length data) = false.
Proof.
  assert (H : ∀ x,
    (Int16Array data = None ↔ Nat.even (length data) = false) ∧
    (Int16Array (x :: data) = None ↔ Nat.even (length (x :: data)) = false)).
  { induction data as [|y data IH]; intros x.
    - by split.
    - split; [apply (IH y)|].
      destruct (IH y) as [IH1 _]. change (Int16Array (x :: y :: data))
        with (cons (int16 x y) <$> Int16Array data).
      change (Nat.even (length (x :: y :: data)))
        with (Nat.even (length data)).
      rewrite <- IH1. by destruct (Int16Array data). }
  apply (H x00).
Qed.

Lemma handle_transcript env message st st' :
  transcript st = transcript st' →
  transcript (handleWSMessage env message st) =
  transcript (handleWSMessage env message st').
Proof.
  destruct st as [h m c pl ch], st' as [h' m' c' pl' ch'].
  unfold transcript. simpl. intros [= <- <- <- <-].
  unfold handleWSMessage, case_transcription, case_text_delta, case_control.
  simpl.
  repeat match goal with
         | |- context [if ?b then _ else _] => destruct b; simpl
         | |- context [match ?o with Some _ => _ | None => _ end] =>
             destruct o; simpl
         end; done.
Qed.

Lemma handle_keeps_player env message st :
  is_Some (audioPlayerRef st) →
  is_Some (audioPlayerRef (handleWSMessage env message st)).
Proof.
  intros Hp. destruct (handle_effect env message st); try done.
  simpl. by destruct Hp as [pl ->].
Qed.

Section LoopFrames.
Variable JSON_parse : string → Parsed.

Lemma receive_text_transcript env data ls ls' :
  transcript (Loop.page ls) = transcript (Loop.page ls') →
  Loop.console ls = Loop.console ls' →
  is_Some (audioPlayerRef (Loop.page ls)) →
  is_Some (audioPlayerRef (Loop.page ls')) →
  ∃ l l', receive JSON_parse env (text data) ls = inl l ∧
          receive JSON_parse env (text data) ls' = inl l' ∧
          transcript (Loop.page l) = transcript (Loop.page l') ∧
          Loop.console l = Loop.console l' ∧
          is_Some (audioPlayerRef (Loop.page l)) ∧
          is_Some (audioPlayerRef (Loop.page l')).
Proof.
  intros Ht Hc Hp Hp'. simpl. rewrite Hc.
  destruct (JSON_parse data) as [| |message]; do 2 eexists;
    (split; [done|]); (split; [done|]); simpl; split_and!; try done.
  - by apply handle_transcript.
  - by apply handle_keeps_player.
  - by apply handle_keeps_player.
Qed.

Lemma for_await_texts frames : ∀ ls ls',
  Forall playable frames →
  transcript (Loop.page ls) = transcript (Loop.page ls') →
  Loop.console ls = Loop.console ls' →
  is_Some (audioPlayerRef (Loop.page ls)) →
  is_Some (audioPlayerRef (Loop.page ls')) →
  (for_await JSON_parse frames ls).2 = None ∧
  (for_await JSON_parse (List.filter is_text frames) ls').2 = None ∧
  transcript (Loop.page (for_await JSON_parse frames ls).1) =
    transcript
      (Loop.page (for_await JSON_parse (List.filter is_text frames) ls').1) ∧
  Loop.console (for_await JSON_parse frames ls).1 =
    Loop.console (for_await JSON_parse (List.filter is_text frames) ls').1.
Proof.
  induction frames as [|[env [data|data]] frames IH];
    intros ls ls' Hall Ht Hc Hp Hp'; [done| |].
  - apply Forall_cons in Hall as [_ Hall].
    change (List.filter is_text ((env, text data) :: frames))
      with ((env, text data) :: List.filter is_text frames).
    rewrite !for_await_cons.
    destruct (receive_text_transcript env data ls ls' Ht Hc Hp Hp')
      as (l & l' & -> & -> & Ht' & Hc' & Hq & Hq').
    by apply IH.
  - apply Forall_cons in Hall as [Heven Hall]. unfold playable in Heven.
    simpl in Heven.
    change (List.filter is_text ((env, binary data) :: frames))
      with (List.filter is_text frames).
    rewrite for_await_cons. simpl.
    destruct Hp as [pl Hpl]. rewrite Hpl.
    destruct (Int16Array data) as [samples|] eqn:Hs.
    + by apply IH.
    + apply Int16Array_None in Hs. congruence.
Qed.

(** X10.  Audio does not touch the transcript: when every binary frame
    has an even length, the loop returns, and the messages, the display
    and the console are those of the same stream with its binary frames
    left out. *)
Theorem binary_frames_leave_transcript frames ls :
  Forall playable frames →
  let r := receiveLoop JSON_parse (Some frames) ls in
  let r0 := receiveLoop JSON_parse (Some (List.filter is_text frames)) ls in
  r.2 = None ∧ r0.2 = None ∧
  Snapshot (Loop.page r.1) = Snapshot (Loop.page r0.1) ∧
  chatState (Loop.page r.1) = chatState (Loop.page r0.1) ∧
  transcript (Loop.page r.1) = transcript (Loop.page r0.1) ∧
  Loop.console r.1 = Loop.console r0.1.
Proof.
  intros Hall r r0. subst r r0. unfold receiveLoop.
  set (ls1 := Loop.mk (initAudioPlayer (Loop.page ls)) (Loop.console ls)).
  assert (Hp : is_Some (audioPlayerRef (Loop.page ls1))).
  { simpl. unfold initAudioPlayer.
    destruct (audioPlayerRef (Loop.page ls)) eqn:Hpl; simpl; [|done].
    by rewrite Hpl. }
  destruct (for_await_texts frames ls1 ls1 Hall eq_refl eq_refl Hp Hp)
    as (H1 & H2 & H3 & H4).
  split_and!; try done.
  - unfold transcript in H3. injection H3 as Hh Hm _ _.
    unfold Snapshot. by rewrite Hh, Hm.
  - unfold transcript in H3. by injection H3.
Qed.

Lemma for_await_ends frames : ∀ ls,
  is_Some (audioPlayerRef (Loop.page ls)) →
  ((for_await JSON_parse frames ls).2 = None ↔ Forall playable frames) ∧
  ((for_await JSON_parse frames ls).2 = None ∨
   (for_await JSON_parse frames ls).2 = Some RangeError).
Proof.
  induction frames as [|[env [data|data]] frames IH]; intros ls Hp.
  - split; [|by left]. split; [by constructor | done].
  - rewrite for_await_cons.
    destruct (receive_text_transcript env data ls ls eq_refl eq_refl Hp Hp)
      as (l & l' & -> & _ & _ & _ & Hq & _).
    destruct (IH l Hq) as [Hiff Hor]. split; [|done].
    rewrite Hiff. split; [by constructor | by intros [_ ?]%Forall_cons].
  - rewrite for_await_cons. simpl. destruct Hp as [pl Hpl]. rewrite Hpl.
    destruct (Int16Array data) as [samples|] eqn:Hs.
    + destruct (IH (Loop.mk
                      (with_audioPlayerRef
                         (Some (Player.play samples pl)) (Loop.page ls))
                      (Loop.console ls))) as [Hiff Hor]; [by eexists|].
      split; [|done]. rewrite Hiff. split.
      * intros Hall. constructor; [|done]. unfold playable. simpl.
        destruct (Nat.even (length data)) eqn:He; [done|].
        apply Int16Array_None in He. congruence.
      * by intros [_ ?]%Forall_cons.
    + simpl. split; [|by right]. split; [done|].
      intros [He _]%Forall_cons. unfold playable in He. simpl in He.
      apply Int16Array_None in Hs. congruence.
Qed.

Lemma for_await_keeps_player frames : ∀ ls ls2 o,
  is_Some (audioPlayerRef (Loop.page ls)) →
  for_await JSON_parse frames ls = (ls2, o) →
  is_Some (audioPlayerRef (Loop.page ls2)).
Proof.
  induction frames as [|[env [data|data]] frames IH]; intros ls ls2 o Hp Hrun.
  - by injection Hrun as <- _.
  - rewrite for_await_cons in Hrun.
    destruct (receive_text_transcript env data ls ls eq_refl eq_refl Hp Hp)
      as (l & l' & Hr & _ & _ & _ & Hq & _).
    rewrite Hr in Hrun. by apply (IH l ls2 o).
  - rewrite for_await_cons in Hrun. simpl in Hrun.
    pose proof Hp as [pl Hpl]. rewrite Hpl in Hrun.
    destruct (Int16Array data); [|by injection Hrun as <- _].
    eapply IH; [|exact Hrun]. by eexists.
Qed.

(** X11.  The loop never ends on a text frame: it returns when the
    stream ends if every binary frame has an even length, and otherwise
    it is rejected with a RangeError at the first binary frame of odd
    length, the frames behind that one unhandled. *)
Theorem receiveLoop_ends frames ls :
  let r := receiveLoop JSON_parse (Some frames) ls in
  (r.2 = None ↔ Forall playable frames) ∧
  (r.2 = None ∨ r.2 = Some RangeError) ∧
  ∀ pre env data post,
    frames = pre ++ (env, binary data) :: post →
    Forall playable pre → Nat.even (length data) = false →
    r = ((receiveLoop JSON_parse (Some pre) ls).1, Some RangeError).
Proof.
  intros r. subst r. unfold receiveLoop.
  set (ls1 := Loop.mk (initAudioPlayer (Loop.page ls)) (Loop.console ls)).
  assert (Hp : is_Some (audioPlayerRef (Loop.page ls1))).
  { simpl. unfold initAudioPlayer.
    destruct (audioPlayerRef (Loop.page ls)) eqn:Hpl; simpl; [|done].
    by rewrite Hpl. }
  destruct (for_await_ends frames ls1 Hp) as [Hiff Hor].
  split_and!; [done | done |].
  intros pre env data post -> Hpre Hodd.
  rewrite for_await_app.
  destruct (for_await_texts pre ls1 ls1 Hpre eq_refl eq_refl Hp Hp)
    as (Hnone & _ & Ht & _).
  destruct (for_await JSON_parse pre ls1) as [ls2 o] eqn:Hrun.
  simpl in Hnone. subst o. rewrite for_await_cons. simpl.
  assert (Hp2 : is_Some (audioPlayerRef (Loop.page ls2)))
    by (by apply (for_await_keeps_player pre ls1 ls2 None)).
  destruct Hp2 as [pl ->]. apply Int16Array_None in Hodd. by rewrite Hodd.
Qed.

End LoopFrames.

(** The theorem for the decoder [parse_frame] and a stream with a chunk
    of two bytes between two deltas. *)
Lemma binary_frames_leave_transcript_witness :
  Snapshot
    (Loop.page
       (receiveLoop parse_frame
          (Some [sample_frame_1; (mkEnv 1 "0.5", binary [x01; x02]);
                 sample_frame_2])
          (Loop.mk initial [])).1) =
  Snapshot
    (Loop.page
       (receiveLoop parse_frame (Some [sample_frame_1; sample_frame_2])
          (Loop.mk initial [])).1).
Proof.
  refine (proj1 (proj2 (proj2
    (binary_frames_leave_transcript parse_frame
       [sample_frame_1; (mkEnv 1 "0.5", binary [x01; x02]); sample_frame_2]
       (Loop.mk initial []) _)))).
  repeat constructor.
Defined.

(** ** The audio the speaker holds *)

Lemma audio_step e s :
  audio (SpeakerOutput.step e s) `sublist_of`
    audio s ++ concat (enqueued [e]) ∧
  (e ≠ SpeakerOutput.clear →
   audio (SpeakerOutput.step e s) = audio s ++ concat (enqueued [e])).
Proof.
  destruct s as [queue provider played cts].
  destruct e as [chunk| | |n|]; unfold audio; simpl.
  - rewrite concat_app. simpl. rewrite !app_nil_r, <- !app_assoc. done.
  - rewrite app_nil_r. unfold SpeakerOutput.ProcessAudioQueue. simpl.
    destruct cts; [done|]. destruct queue as [|buffer rest]; [done|].
    simpl. by rewrite <- !app_assoc.
  - rewrite app_nil_r. split; [|done].
    apply sublist_app; [done|]. apply sublist_inserts_l. done.
  - rewrite app_nil_r, <- !app_assoc, (app_assoc (take n provider)).
    by rewrite take_drop.
  - by rewrite app_nil_r.
Qed.

Lemma enqueued_cons e sched :
  concat (enqueued (e :: sched)) = concat (enqueued [e]) ++ concat (enqueued sched).
Proof. unfold enqueued. simpl. destruct e; simpl; by rewrite ?app_nil_r. Qed.

(** X12.  The speaker plays enqueued audio only, in the order of
    enqueueing and without repetition: under any schedule of the caller,
    the background task and the device, what the device got, followed by
    what the provider and the queue still hold, is a subsequence of the
    enqueued bytes, and it is all of them if [ClearPlayback] was not
    called. *)
Theorem audio_in_enqueue_order sched :
  let s := SpeakerOutput.run sched SpeakerOutput.new in
  audio s `sublist_of` concat (enqueued sched) ∧
  SpeakerOutput.device s `sublist_of` concat (enqueued sched) ∧
  (Forall (fun e => e ≠ SpeakerOutput.clear) sched →
   audio s = concat (enqueued sched)).
Proof.
  assert (H : ∀ s0,
    audio (SpeakerOutput.run sched s0) `sublist_of`
      audio s0 ++ concat (enqueued sched) ∧
    (Forall (fun e => e ≠ SpeakerOutput.clear) sched →
     audio (SpeakerOutput.run sched s0) = audio s0 ++ concat (enqueued sched))).
  { induction sched as [|e sched IH]; intros s0.
    - simpl. by rewrite app_nil_r.
    - rewrite run_cons, enqueued_cons.
      destruct (IH (SpeakerOutput.step e s0)) as [Hsub Heq].
      destruct (audio_step e s0) as [Hsub1 Heq1]. split.
      + etrans; [exact Hsub|]. rewrite app_assoc.
        by apply sublist_app.
      + intros [He Hall]%Forall_cons.
        by rewrite Heq, Heq1, <- app_assoc. }
  intros s. destruct (H SpeakerOutput.new) as [Hsub Heq].
  split_and!; [done | | done].
  etrans; [|exact Hsub]. unfold audio. by apply sublist_inserts_r.
Qed.

(** ** The console client: configuration *)

(** X13.  [GetConfiguredClient] decides by the Azure endpoint first.
    With the endpoint set, OPENAI_API_KEY is never looked at: Entra is
    taken when AZURE_OPENAI_USE_ENTRA parses to true (the Azure key is
    then not looked at either), else the Azure key, and without a key the
    call throws even if an OpenAI key is set.  The OpenAI client is built
    only without the endpoint, always for the same model.  The call
    throws an InvalidOperationException exactly when the endpoint is set
    without Entra and without Azure key, or neither endpoint nor OpenAI
    key is set. *)
Theorem GetConfiguredClient_choice (TryParse : option string → option bool)
  (e : Program.Environment) :
  let r := Program.GetConfiguredClient TryParse e in
  ((∃ message, r.2 = inr (Program.InvalidOperationException message)) ↔
   (is_Some (Program.AZURE_OPENAI_ENDPOINT e) ∧
    TryParse (Program.AZURE_OPENAI_USE_ENTRA e) ≠ Some true ∧
    Program.AZURE_OPENAI_API_KEY e = None) ∨
   (Program.AZURE_OPENAI_ENDPOINT e = None ∧ Program.OPENAI_API_KEY e = None)) ∧
  (∀ credential model,
     r.2 = inl (Program.OpenAIClient credential model) →
     Program.AZURE_OPENAI_ENDPOINT e = None ∧
     Program.OPENAI_API_KEY e = Some
       (match credential with
        | Program.ApiKeyCredential key => key
        | Program.DefaultAzureCredential => EmptyString
        end) ∧
     credential ≠ Program.DefaultAzureCredential ∧
     model = "gpt-4o-realtime-preview-2024-10-01") ∧
  (∀ endpoint credential deployment,
     r.2 = inl (Program.AzureOpenAIClient endpoint credential deployment) →
     Program.AZURE_OPENAI_ENDPOINT e = Some endpoint ∧
     deployment = Program.AZURE_OPENAI_DEPLOYMENT e ∧
     (credential = Program.DefaultAzureCredential ↔
      TryParse (Program.AZURE_OPENAI_USE_ENTRA e) = Some true) ∧
     (∀ key, credential = Program.ApiKeyCredential key →
             Program.AZURE_OPENAI_API_KEY e = Some key)) ∧
  (∀ other,
     is_Some (Program.AZURE_OPENAI_ENDPOINT e) →
     Program.GetConfiguredClient TryParse
       (Program.mkEnvironment (Program.AZURE_OPENAI_ENDPOINT e)
          (Program.AZURE_OPENAI_USE_ENTRA e)
          (Program.AZURE_OPENAI_DEPLOYMENT e)
          (Program.AZURE_OPENAI_API_KEY e) other) = r).
Proof.
  intros r. subst r. unfold Program.GetConfiguredClient.
  destruct e as [endpoint useEntra deployment aoaiKey oaiKey]. simpl.
  destruct endpoint as [endpoint|].
  - destruct (decide (TryParse useEntra = Some true)) as [He|He].
    + rewrite bool_decide_eq_true_2 by done. simpl.
      split_and!; try done.
      * split; [by intros [? ?] | intros [(_ & Hn & _)|[? _]]; done].
      * intros ? ? ? [= <- <- <-]. split_and!; try done.
    + rewrite bool_decide_eq_false_2 by done.
      destruct aoaiKey as [key|]; simpl.
      * unfold Program.GetConfiguredClientForAzureOpenAIWithKey.
        destruct (Program.first5 key); simpl; split_and!; try done;
          try (split; [by intros [? ?] | intros [(_ & _ & ?)|[? _]]; done]).
        intros ? ? ? [= <- <- <-]. split_and!; try done.
        by intros ? [= <-].
      * split_and!; try done. split; [|by eexists].
        intros _. left. split_and!; [by eexists | done | done].
  - destruct oaiKey as [key|]; simpl.
    + unfold Program.GetConfiguredClientForOpenAIWithKey.
      destruct (Program.first5 key); simpl; split_and!; try done;
        try (split; [by intros [? ?] | intros [([? ?] & _)|[_ ?]]; done]);
        try (by intros ? [? ?]).
      by intros ? ? [= <- <-].
    + split_and!; try done; try (by intros ? [? ?]).
      split; [|by eexists]. intros _. by right.
Qed.

Lemma first5_length key :
  (String.length key < 5 → Program.first5 key = None) ∧
  (5 ≤ String.length key →
   Program.first5 key = Some (String.substring 0 5 key)).
Proof.
  unfold Program.first5. split; intros H; case_decide; try done; lia.
Qed.

(** X14.  A key shorter than five characters makes both key helpers end
    in an ArgumentOutOfRangeException, after the endpoint line and before
    any client is asked for.  With a longer key the client is built with
    the whole key, and the console depends on the key through its first
    five characters only. *)
Theorem api_key_shown_by_first_five endpoint deployment key :
  (String.length key < 5 →
   Program.GetConfiguredClientForAzureOpenAIWithKey endpoint deployment key =
     ([Program.endpointLine endpoint],
      inr Program.ArgumentOutOfRangeException) ∧
   (Program.GetConfiguredClientForOpenAIWithKey key).2 =
     inr Program.ArgumentOutOfRangeException ∧
   length (Program.GetConfiguredClientForOpenAIWithKey key).1 = 1) ∧
  (5 ≤ String.length key →
   (Program.GetConfiguredClientForAzureOpenAIWithKey endpoint deployment key).2
     = inl (Program.AzureOpenAIClient endpoint (Program.ApiKeyCredential key)
              deployment) ∧
   (Program.GetConfiguredClientForOpenAIWithKey key).2 =
     inl (Program.OpenAIClient (Program.ApiKeyCredential key)
            "gpt-4o-realtime-preview-2024-10-01") ∧
   ∀ key', 5 ≤ String.length key' →
     String.substring 0 5 key' = String.substring 0 5 key →
     (Program.GetConfiguredClientForAzureOpenAIWithKey endpoint deployment
        key').1 =
     (Program.GetConfiguredClientForAzureOpenAIWithKey endpoint deployment
        key).1 ∧
     (Program.GetConfiguredClientForOpenAIWithKey key').1 =
     (Program.GetConfiguredClientForOpenAIWithKey key).1).
Proof.
  destruct (first5_length key) as [Hshort Hlong].
  unfold Program.GetConfiguredClientForAzureOpenAIWithKey,
    Program.GetConfiguredClientForOpenAIWithKey.
  split.
  - intros H. by rewrite (Hshort H).
  - intros H. rewrite (Hlong H). split_and!; try done.
    intros key' H' Heq. rewrite (proj2 (first5_length key') H'), Heq. done.
Qed.

(** ** The console client: the update loop *)

Lemma ProcessUpdatesAsync_handled updates s :
  Program.ProcessUpdatesAsync (Program.handled updates) s =
  Program.ProcessUpdatesAsync updates s.
Proof.
  revert s. induction updates as [|update updates IH]; intros s; [done|].
  simpl. destruct (Program.final update) eqn:Hf.
  - destruct update; try discriminate; simpl.
    + by destruct (Program.Release _).
    + destruct (Program.responseComplete _); [done|].
      by destruct (Program.Release _).
  - destruct update; try discriminate; simpl; try apply IH.
    destruct AudioBytes; apply IH.
Qed.

Lemma handled_app updates more :
  existsb Program.final updates = true →
  Program.handled (updates ++ more) = Program.handled updates.
Proof.
  induction updates as [|update updates IH]; [done|]. simpl.
  destruct (Program.final update); [done|]. simpl. intros H.
  by rewrite (IH H).
Qed.

Lemma body_next update s s' :
  Program.body update s = Program.next s' →
  Program.final update = false ∧
  Program.conversationCompletedSemaphore s' =
    Program.conversationCompletedSemaphore s ∧
  Program.responseComplete s' = Program.responseComplete s ∧
  Program.recording s' = Program.recording s && negb (Program.speechFinished update) ∧
  Program.speakerOutput s' =
    SpeakerOutput.run (SpeakerOutput.enqueue <$> Program.audioBytes [update])
      (Program.speakerOutput s) ∧
  Program.isPlayingResponse s' =
    Program.isPlayingResponse s ||
    bool_decide (Program.audioBytes [update] ≠ []).
Proof.
  destruct update; simpl.
  - intros [= <-]. simpl. by rewrite andb_true_r, orb_false_r.
  - intros [= <-]. simpl. by rewrite andb_true_r, orb_false_r.
  - intros [= <-]. simpl. by rewrite andb_false_r, orb_false_r.
  - intros [= <-]. simpl. by rewrite andb_true_r, orb_false_r.
  - destruct AudioBytes as [bytes|]; intros [= <-];
      destruct Text as [[|c rest]|]; simpl;
      by rewrite ?andb_true_r, ?orb_false_r, ?orb_true_r.
  - by destruct (Program.Release _).
  - destruct (Program.responseComplete _); [done|].
    by destruct (Program.Release _).
  - intros [= <-]. by rewrite andb_true_r, orb_false_r.
Qed.

Lemma body_final update s :
  Program.final update = true →
  Program.conversationCompletedSemaphore s = 0 →
  Program.responseComplete s = false →
  ∃ s', Program.body update s = Program.break s' ∧
        Program.conversationCompletedSemaphore s' = 1 ∧
        Program.recording s' = Program.recording s ∧
        Program.speakerOutput s' = Program.speakerOutput s ∧
        Program.isPlayingResponse s' = Program.isPlayingResponse s.
Proof.
  intros Hf H0 Hc. destruct update; try discriminate; simpl.
  - unfold Program.Release. simpl. rewrite H0. simpl. by eexists.
  - rewrite Hc. unfold Program.Release. simpl. rewrite H0. simpl. by eexists.
Qed.

Lemma audioBytes_cons update updates :
  Program.audioBytes (update :: updates) =
  Program.audioBytes [update] ++ Program.audioBytes updates.
Proof.
  unfold Program.audioBytes. simpl.
  by destruct update as [| | | |? [?|]| | |].
Qed.

Lemma ProcessUpdatesAsync_run updates s :
  Program.conversationCompletedSemaphore s = 0 →
  Program.responseComplete s = false →
  let r := Program.ProcessUpdatesAsync updates s in
  r.2 = false ∧
  Program.conversationCompletedSemaphore r.1 =
    (if existsb Program.final updates then 1 else 0) ∧
  Program.recording r.1 =
    Program.recording s &&
    negb (existsb Program.speechFinished (Program.handled updates)) ∧
  Program.speakerOutput r.1 =
    SpeakerOutput.run
      (SpeakerOutput.enqueue <$> Program.audioBytes (Program.handled updates))
      (Program.speakerOutput s) ∧
  Program.isPlayingResponse r.1 =
    Program.isPlayingResponse s ||
    bool_decide (Program.audioBytes (Program.handled updates) ≠ []).
Proof.
  revert s. induction updates as [|update updates IH]; intros s H0 Hc.
  - simpl. by rewrite andb_true_r, orb_false_r.
  - destruct (Program.final update) eqn:Hf;
      cbn [Program.ProcessUpdatesAsync Program.handled existsb];
      rewrite Hf; cbn [orb].
    + destruct (body_final update s Hf H0 Hc)
        as (s' & -> & H1 & Hrec & Hsp & Hpl). simpl.
      split_and!; try done.
      * rewrite Hrec. destruct update; try discriminate; simpl;
          by rewrite andb_true_r.
      * rewrite Hsp. by destruct update.
      * rewrite Hpl. destruct update; try discriminate; simpl;
          by rewrite orb_false_r.
    + destruct (Program.body update s) as [s'|s'|s'] eqn:Hb.
      * destruct (body_next _ _ _ Hb) as (_ & H0' & Hc' & Hrec & Hsp & Hpl).
        destruct (IH s') as (He & Hs & Hr & Hq & Hp); [congruence..|].
        cbv zeta. split_and!; try done.
        -- cbn [existsb]. rewrite Hr, Hrec, negb_orb. by rewrite andb_assoc.
        -- rewrite (audioBytes_cons update), fmap_app, Hq, Hsp.
           unfold SpeakerOutput.run. by rewrite foldl_app.
        -- rewrite (audioBytes_cons update), Hp, Hpl, <- orb_assoc. f_equal.
           destruct (Program.audioBytes [update]) as [|chunk chunks].
           ++ rewrite (bool_decide_eq_false_2 ([] ≠ []))
                by (intros H; by apply H).
              done.
           ++ by rewrite !bool_decide_eq_true_2 by done.
      * exfalso. destruct update; try discriminate; simpl in Hb.
        by destruct AudioBytes.
      * exfalso. destruct update; try discriminate; simpl in Hb.
        by destruct AudioBytes.
Qed.

(** X15.  Started by [Main], the update loop stops at the first update
    that finishes the response or reports an error: what follows it is
    never looked at.  The semaphore is released exactly once when such an
    update arrives and not at all otherwise, so [Release] never throws a
    SemaphoreFullException, and the test of [responseComplete] in the
    error branch always finds it false. *)
Theorem loop_releases_once updates more speaker :
  let r := Program.ProcessUpdatesAsync updates (Program.start speaker) in
  r.2 = false ∧
  r = Program.ProcessUpdatesAsync (Program.handled updates)
        (Program.start speaker) ∧
  (Program.conversationCompletedSemaphore r.1 = 1 ↔
   ∃ update, update ∈ updates ∧ Program.final update = true) ∧
  (Program.conversationCompletedSemaphore r.1 = 0 ↔
   ∀ update, update ∈ updates → Program.final update = false) ∧
  ((∃ update, update ∈ updates ∧ Program.final update = true) →
   Program.ProcessUpdatesAsync (updates ++ more) (Program.start speaker) = r).
Proof.
  intros r. subst r.
  destruct (ProcessUpdatesAsync_run updates (Program.start speaker))
    as (He & Hs & _); [done..|].
  split_and!; [done | by rewrite ProcessUpdatesAsync_handled | | |].
  - rewrite Hs. destruct (existsb Program.final updates) eqn:Hx.
    + apply existsb_exists in Hx as (u & Hu & Hf).
      split; [|done]. intros _. exists u. by rewrite list_elem_of_In.
    + split; [done|]. intros (u & Hu & Hf).
      assert (existsb Program.final updates = true) as Hy; [|congruence].
      apply existsb_exists. exists u. by rewrite <- list_elem_of_In.
  - rewrite Hs. destruct (existsb Program.final updates) eqn:Hx.
    + apply existsb_exists in Hx as (u & Hu & Hf).
      split; [done|]. intros Hall.
      rewrite <- list_elem_of_In in Hu. specialize (Hall u Hu). congruence.
    + split; [|done]. intros _ u Hu.
      destruct (Program.final u) eqn:Hf; [|done].
      assert (existsb Program.final updates = true) as Hy; [|congruence].
      apply existsb_exists. exists u. by rewrite <- list_elem_of_In.
  - intros (u & Hu & Hf).
    rewrite <- (ProcessUpdatesAsync_handled (updates ++ more)).
    rewrite handled_app, ProcessUpdatesAsync_handled; [done|].
    apply existsb_exists. exists u. by rewrite <- list_elem_of_In.
Qed.

(** X16.  What the update loop does to the devices: the speaker gets the
    audio of the deltas that arrive up to the final update, enqueued in
    their order, and nothing else (its playback is never cleared, not
    even when speech starts); [isPlayingResponse] is set exactly when
    there was such audio; the microphone is stopped exactly when an end
    of speech arrived up to the final update. *)
Theorem loop_devices updates speaker :
  let r := (Program.ProcessUpdatesAsync updates (Program.start speaker)).1 in
  let seen := Program.handled updates in
  Program.speakerOutput r =
    SpeakerOutput.run (SpeakerOutput.enqueue <$> Program.audioBytes seen)
      speaker ∧
  SpeakerOutput._audioQueue (Program.speakerOutput r) =
    SpeakerOutput._audioQueue speaker ++ Program.audioBytes seen ∧
  SpeakerOutput._waveProvider (Program.speakerOutput r) =
    SpeakerOutput._waveProvider speaker ∧
  (Program.isPlayingResponse r = true ↔ Program.audioBytes seen ≠ []) ∧
  (Program.recording r = false ↔
   ∃ AudioEndTime,
     Program.ConversationInputSpeechFinishedUpdate AudioEndTime ∈ seen).
Proof.
  intros r seen. subst r seen.
  destruct (ProcessUpdatesAsync_run updates (Program.start speaker))
    as (_ & _ & Hr & Hq & Hp); [done..|].
  simpl in Hr, Hq, Hp.
  assert (∀ chunks s,
            SpeakerOutput.run (SpeakerOutput.enqueue <$> chunks) s =
            SpeakerOutput.mk (SpeakerOutput._audioQueue s ++ chunks)
              (SpeakerOutput._waveProvider s) (SpeakerOutput.device s)
              (SpeakerOutput._cts s)) as Hrun.
  { induction chunks as [|chunk chunks IH]; intros s.
    - simpl. rewrite app_nil_r. by destruct s.
    - rewrite fmap_cons, run_cons, IH. simpl.
      by rewrite <- app_assoc. }
  split_and!.
  - done.
  - by rewrite Hq, Hrun.
  - by rewrite Hq, Hrun.
  - rewrite Hp. by rewrite bool_decide_eq_true.
  - rewrite Hr, negb_false_iff. split.
    + intros (u & Hu & Hf)%existsb_exists.
      destruct u; try discriminate. exists AudioEndTime.
      by rewrite list_elem_of_In.
    + intros (t & Ht). apply existsb_exists.
      eexists. split; [by rewrite <- list_elem_of_In|done].
Qed.

(** ** The connection manager *)

Section Manager.
Import WebSocketConnectionManager.

Lemma closed_app cs cs' : closed (cs ++ cs') = closed cs ++ closed cs'.
Proof. apply omap_app. Qed.

Lemma disposed_app cs cs' :
  disposed (cs ++ cs') = disposed cs ++ disposed cs'.
Proof. apply omap_app. Qed.

Lemma TryAdd_lookup key value d key' :
  TryAdd key value d !! key' =
  if decide (key = key') then Some (default value (d !! key)) else d !! key'.
Proof.
  unfold TryAdd. destruct (d !! key) as [v|] eqn:Hk; simpl.
  - case_decide; [by subst|done].
  - case_decide; [subst; by rewrite lookup_insert_eq|].
    by rewrite lookup_insert_ne.
Qed.

Ltac manager_crunch :=
  repeat first
    [ progress simpl
    | rewrite lookup_delete_eq
    | rewrite lookup_insert_eq
    | rewrite lookup_delete_ne by (done || by apply not_eq_sym)
    | rewrite closed_app
    | rewrite disposed_app
    | rewrite app_nil_r
    | rewrite bool_decide_eq_false_2 by (by intros [? ?])
    | rewrite bool_decide_eq_true_2 by eauto
    | match goal with
      | H : ?d !! ?k = _ |- context [?d !! ?k] => rewrite H
      end ].

(** X17.  [RemoveConnectionAsync] takes the connection out and calls
    [CloseAsync] on its socket once; the other ids keep their socket and
    session.  When [CloseAsync] completes, or there was no connection,
    the session of the id is taken out and disposed, and a second call
    does nothing.  When [CloseAsync] throws, the session stays registered
    and is not disposed; a second call then disposes it without closing
    any socket.  The session disposed is the first that [AddSession] got
    for the id: a later [AddSession] for the same id is ignored. *)
Theorem RemoveConnectionAsync_effect closes connectionId m :
  let r := RemoveConnectionAsync closes connectionId m in
  GetConnection connectionId r.1 = None ∧
  (∀ other, other ≠ connectionId →
     GetConnection other r.1 = GetConnection other m ∧
     GetSession other r.1 = GetSession other m) ∧
  closed (calls r.1) =
    closed (calls m) ++ option_list (GetConnection connectionId m) ∧
  (r.2 = true ↔ is_Some (GetConnection connectionId m) ∧ closes = false) ∧
  (r.2 = false →
   GetSession connectionId r.1 = None ∧
   disposed (calls r.1) =
     disposed (calls m) ++ option_list (GetSession connectionId m) ∧
   ∀ closes', RemoveConnectionAsync closes' connectionId r.1 = (r.1, false)) ∧
  (r.2 = true →
   GetSession connectionId r.1 = GetSession connectionId m ∧
   disposed (calls r.1) = disposed (calls m) ∧
   ∀ closes',
     let r' := RemoveConnectionAsync closes' connectionId r.1 in
     r'.2 = false ∧ closed (calls r'.1) = closed (calls r.1) ∧
     disposed (calls r'.1) =
       disposed (calls m) ++ option_list (GetSession connectionId m)) ∧
  (∀ first later,
     GetSession connectionId m = None →
     AddSession connectionId later (AddSession connectionId first m) =
       AddSession connectionId first m ∧
     disposed
       (calls (RemoveConnectionAsync true connectionId
                 (AddSession connectionId later
                    (AddSession connectionId first m))).1) =
     disposed (calls m) ++ [first]).
Proof.
  intros r. subst r. unfold RemoveConnectionAsync, GetConnection, GetSession.
  destruct m as [conns sess cs]. simpl.
  destruct (conns !! connectionId) as [socket|] eqn:Hc;
    destruct (sess !! connectionId) as [session|] eqn:Hs;
    destruct closes; manager_crunch; split_and!; manager_crunch;
    try done; try (by intros [? ?]); try (split; [done|]);
    try (by intros [[? ?] ?]); try (by intros [? ?]); try (by eauto);
    try (intros other Hne; by manager_crunch);
    try (intros _; split_and!; try done; intros closes'; by manager_crunch);
    try (by intros first later ?);
    try (intros first later _; unfold AddSession, TryAdd; simpl;
         rewrite Hs, lookup_insert_eq; split; [done|]; by manager_crunch).
  all: by rewrite lookup_delete_ne by (by apply not_eq_sym).
Qed.

Lemma added_app ops ops' : added (ops ++ ops') = added ops ++ added ops'.
Proof. apply omap_app. Qed.

Lemma manager_ok_added ops ops' m :
  added ops' = added ops → manager_ok ops m → manager_ok ops' m.
Proof. intros He [? ? ? ?]. split; by rewrite ?He. Qed.

Lemma manager_ok_new : manager_ok [] new.
Proof.
  split; simpl.
  - intros g s. by rewrite lookup_empty.
  - intros s Hin. by apply elem_of_nil in Hin.
  - constructor.
  - intros g s Hin. by apply elem_of_nil in Hin.
Qed.

Lemma manager_ok_add ops g0 s0 m :
  g0 ∉ (added ops).*1 →
  manager_ok ops m →
  manager_ok (ops ++ [add_connection g0 s0])
    (AddConnection g0 s0 m).2.
Proof.
  intros Hg [Hreg Hcl Honce Hkept].
  assert (Hfresh : _connections m !! g0 = None).
  { destruct (_connections m !! g0) as [s|] eqn:Hl; [|done].
    exfalso. apply Hg, list_elem_of_fmap. exists (g0, s).
    split; [done|by apply Hreg]. }
  unfold AddConnection, TryAdd. rewrite Hfresh.
  split; simpl; rewrite ?added_app;
    change (added [add_connection g0 s0]) with [(g0, s0)].
  - intros g s. rewrite elem_of_app, list_elem_of_singleton.
    destruct (decide (g0 = g)) as [<-|Hne].
    + rewrite lookup_insert_eq. intros [= <-]. by right.
    + rewrite lookup_insert_ne by done. intros Hl. left. by apply Hreg.
  - intros s Hin. destruct (Hcl s Hin) as (g & Hadd & Hnone).
    exists g. rewrite elem_of_app. split; [by left|].
    destruct (decide (g0 = g)) as [<-|Hne]; [|by rewrite lookup_insert_ne].
    exfalso. apply Hg, list_elem_of_fmap. by exists (g0, s).
  - done.
  - intros g s. rewrite elem_of_app, list_elem_of_singleton.
    intros [Hin|[= -> ->]].
    + destruct (Hkept g s Hin) as [Hl|Hc]; [|by right].
      left. rewrite lookup_insert_ne; [done|]. intros <-. congruence.
    + left. by rewrite lookup_insert_eq.
Qed.

Lemma manager_ok_remove ops closes g0 m :
  NoDup (added ops).*2 →
  manager_ok ops m →
  manager_ok (ops ++ [remove_connection closes g0])
    (RemoveConnectionAsync closes g0 m).1.
Proof.
  intros Hs Hok0.
  apply (manager_ok_added ops); [by rewrite added_app, app_nil_r|].
  destruct Hok0 as [Hreg Hcl Honce Hkept].
  assert (Hsame : ∀ g g' s, (g, s) ∈ added ops → (g', s) ∈ added ops → g = g').
  { intros g g' s [i Hi]%list_elem_of_lookup [j Hj]%list_elem_of_lookup.
    assert (i = j) as ->; [|congruence].
    apply (NoDup_lookup _ i j s Hs); rewrite list_lookup_fmap;
      by rewrite ?Hi, ?Hj. }
  unfold RemoveConnectionAsync.
  destruct (_connections m !! g0) as [s0|] eqn:Hl.
  - assert (Hnew : s0 ∉ closed (calls m)).
    { intros Hin. destruct (Hcl s0 Hin) as (g & Hadd & Hnone).
      rewrite (Hsame g g0 s0 Hadd (Hreg _ _ Hl)) in Hnone. congruence. }
    assert (manager_ok ops
              (mk (delete g0 (_connections m)) (_sessions m)
                 (calls m ++ [CloseAsync s0]))) as Hok.
    { split; simpl.
      - intros g s. destruct (decide (g0 = g)) as [<-|Hne];
          [by rewrite lookup_delete_eq|].
        rewrite lookup_delete_ne by done. apply Hreg.
      - intros s. rewrite closed_app, elem_of_app. simpl.
        rewrite list_elem_of_singleton. intros [Hin| ->].
        + destruct (Hcl s Hin) as (g & Hadd & Hnone). exists g.
          split; [done|].
          destruct (decide (g0 = g)) as [<-|Hne];
            [by rewrite lookup_delete_eq | by rewrite lookup_delete_ne].
        + exists g0. split; [by apply Hreg | by rewrite lookup_delete_eq].
      - rewrite closed_app. simpl. apply NoDup_app. split_and!; [done| |].
        + intros s Hin ->%list_elem_of_singleton. done.
        + apply NoDup_singleton.
      - intros g s Hadd. rewrite closed_app, elem_of_app. simpl.
        rewrite list_elem_of_singleton.
        destruct (Hkept g s Hadd) as [Hk|Hc]; [|by right; left].
        destruct (decide (g0 = g)) as [<-|Hne].
        + right. right. congruence.
        + left. by rewrite lookup_delete_ne. }
    rewrite bool_decide_eq_true_2 by eauto.
    destruct closes; simpl; [|done].
    destruct (_sessions m !! g0) as [session|]; simpl; [|done].
    destruct Hok as [Hreg' Hcl' Honce' Hkept']. simpl in *.
    split; simpl; try done.
    + intros s. rewrite closed_app. simpl. rewrite app_nil_r. apply Hcl'.
    + rewrite closed_app. simpl. by rewrite app_nil_r.
    + intros g s Hadd. rewrite closed_app. simpl. rewrite app_nil_r.
      by apply Hkept'.
  - rewrite bool_decide_eq_false_2 by (by intros [? ?]). simpl.
    destruct (_sessions m !! g0) as [session|]; simpl; [|done].
    split; simpl; try done.
    + intros s. rewrite closed_app. simpl. rewrite app_nil_r. apply Hcl.
    + rewrite closed_app. simpl. by rewrite app_nil_r.
    + intros g s Hadd. rewrite closed_app. simpl. rewrite app_nil_r.
      by apply Hkept.
Qed.

Lemma manager_ok_run ops :
  NoDup (added ops).*1 → NoDup (added ops).*2 →
  manager_ok ops (run ops new).
Proof.
  induction ops as [|op ops IH] using rev_ind; intros Hg Hs.
  - apply manager_ok_new.
  - unfold run. rewrite foldl_app. simpl. fold (run ops new).
    rewrite added_app, fmap_app in Hg. rewrite added_app, fmap_app in Hs.
    apply NoDup_app in Hg as (Hg & Hg' & _).
    apply NoDup_app in Hs as (Hs & _ & _).
    specialize (IH Hg Hs).
    destruct op as [g0 s0|g0 s0|closes g0]; simpl.
    + apply manager_ok_add; [|done]. intros Hin. apply (Hg' g0 Hin).
      simpl. by left.
    + apply (manager_ok_added ops); [by rewrite added_app, app_nil_r|].
      destruct IH as [Hreg Hcl Honce Hkept]. by split.
    + by apply manager_ok_remove.
Qed.

(** X18.  When every connection got an id of its own and no socket was
    registered twice, then after any calls of the manager no socket has
    been closed twice, a socket is handed out under the id it
    was registered with only, and a registered socket is handed out
    exactly as long as [CloseAsync] has not been called on it. *)
Theorem registered_socket_closed_once ops :
  NoDup (added ops).*1 → NoDup (added ops).*2 →
  let m := run ops new in
  NoDup (closed (calls m)) ∧
  (∀ connectionId socket,
     GetConnection connectionId m = Some socket →
     (connectionId, socket) ∈ added ops) ∧
  (∀ socket, socket ∈ closed (calls m) → socket ∈ (added ops).*2) ∧
  (∀ connectionId socket,
     (connectionId, socket) ∈ added ops →
     (GetConnection connectionId m = Some socket ↔
      socket ∉ closed (calls m))).
Proof.
  intros Hg Hs m.
  destruct (manager_ok_run ops Hg Hs) as [Hreg Hcl Honce Hkept].
  fold m in Hreg, Hcl, Honce, Hkept. unfold GetConnection.
  split_and!; [done | done | |].
  - intros s Hin. destruct (Hcl s Hin) as (g & Hadd & _).
    apply list_elem_of_fmap. by exists (g, s).
  - intros g s Hadd. split.
    + intros Hl Hin. destruct (Hcl s Hin) as (g' & Hadd' & Hnone).
      assert (g' = g) as ->; [|congruence].
      apply list_elem_of_lookup in Hadd as [i Hi].
      apply list_elem_of_lookup in Hadd' as [j Hj].
      assert (j = i) as ->; [|congruence].
      apply (NoDup_lookup _ j i s Hs); rewrite list_lookup_fmap;
        by rewrite ?Hi, ?Hj.
    + intros Hn. by destruct (Hkept g s Hadd).
Qed.

Lemma registered_socket_closed_once_witness :
  let m := run sample_ops new in
  NoDup (closed (calls m)) ∧
  GetConnection "b" m = Some 2 ∧ GetConnection "a" m = None ∧
  closed (calls m) = [1] ∧ disposed (calls m) = [7].
Proof.
  assert (Hg : NoDup (added sample_ops).*1)
    by (apply (bool_decide_unpack _); vm_compute; reflexivity).
  assert (Hs : NoDup (added sample_ops).*2)
    by (apply (bool_decide_unpack _); vm_compute; reflexivity).
  split; [exact (proj1 (registered_socket_closed_once sample_ops Hg Hs))|].
  vm_compute. done.
Defined.

End Manager.

(** ** A run of the configuration with [bool.TryParse] *)

Lemma GetConfiguredClient_sample :
  Program.GetConfiguredClient Program.Boolean_TryParse
    (Program.mkEnvironment (Some "https://example.openai.azure.com")
       (Some " True ") None (Some "key") (Some "sk-0123456789")) =
  Program.GetConfiguredClientForAzureOpenAIWithEntra
    "https://example.openai.azure.com" None ∧
  (Program.GetConfiguredClient Program.Boolean_TryParse
     (Program.mkEnvironment (Some "https://example.openai.azure.com")
        (Some "yes") None (Some "key") (Some "sk-0123456789"))).2 =
  inr Program.ArgumentOutOfRangeException.
Proof. split; vm_compute; reflexivity. Qed.
